(** * The webview protocol of i18n-ally (src/protocol/index.ts)

    A shallow embedding of the [Protocol] class: the message gate
    ([postMessage]), the record relay ([setRecords], [reply]), the context
    reporter ([sendCurrentFileContext]) and the dispatcher
    ([handleMessages]), followed by the properties proved about them.

    Conventions of the embedding.
    - A JavaScript value is a [JSValue]; an object is a finite map from
      property names to values, so a [Message] is a [gmap string JSValue].
      Numbers are only copied by this code, never computed with, and are
      kept as integers.
    - The session object is a [Protocol] record with the fields of the class.
      A [World] adds what the JavaScript run time holds for it: the flush
      loops of [postMessage] that are suspended at their [await], and the
      trace of calls made so far.
    - The collaborators (loader, review tracker, configuration, active
      editor, key detector) are not part of this file of the repository: an
      [Env] is what they answer at the moment an operation runs; calls that
      act on them are recorded in the trace.
    - A function that can throw a [TypeError] returns an [option]; [None]
      is the throw.  Every throwing point of this code comes before the
      first effect of the call, so nothing is lost by not keeping a state
      with [None].
    - The promise returned by the transport is pending until the run
      fulfils it ([TransportFulfilled]); the collaborators answer without
      throwing. A transport or collaborator that fails is outside this
      development. *)

From stdpp Require Import base strings list gmap pretty.
From Stdlib Require Import ZArith Lia Ascii.

Set Warnings "-register-all".

(** ** JavaScript values *)

Inductive JSValue : Type :=
| VUndefined
| VNull
| VBool (b : bool)
| VNum (n : Z)
| VStr (s : string)
| VArr (l : list JSValue)
| VObj (o : gmap string JSValue).

(** [interface Message]: an object; [type], [_id], [keypath], ... are its
    properties, all but [type] optional. *)
Abbreviation Message := (gmap string JSValue).

(** Truthiness, as tested by [if (v)] and [v || w]. *)
Definition truthy (v : JSValue) : bool :=
  match v with
  | VUndefined | VNull => false
  | VBool b => b
  | VNum n => negb (n =? 0)%Z
  | VStr s => negb (String.eqb s "")
  | VArr _ | VObj _ => true
  end.

(** The index properties ["i"], ["i+1"], ... of an array's elements. *)
Fixpoint index_props (i : nat) (l : list JSValue) : gmap string JSValue :=
  match l with
  | [] => ∅
  | v :: l' => <[pretty i := v]> (index_props (S i) l')
  end.

Definition chars (s : string) : list JSValue :=
  (λ c, VStr (String c EmptyString)) <$> String.list_ascii_of_string s.

(** The own enumerable properties of a value: what [{...v}] copies. *)
Definition own_props (v : JSValue) : gmap string JSValue :=
  match v with
  | VObj o => o
  | VArr l => index_props 0 l
  | VStr s => index_props 0 (chars s)
  | VUndefined | VNull | VBool _ | VNum _ => ∅
  end.

(** [o.k] on an object: [undefined] when the property is absent. *)
Definition get (o : gmap string JSValue) (k : string) : JSValue :=
  default VUndefined (o !! k).

(** [v.k] on any value: a [TypeError] on [undefined] and [null]. Methods
    of the prototypes are functions and have no [JSValue]. *)
Definition member (v : JSValue) (k : string) : option JSValue :=
  match v with
  | VUndefined | VNull => None
  | VObj o => Some (get o k)
  | VArr l =>
      Some (if decide (k = "length") then VNum (Z.of_nat (length l))
            else get (index_props 0 l) k)
  | VStr s =>
      Some (if decide (k = "length") then VNum (Z.of_nat (String.length s))
            else get (index_props 0 (chars s)) k)
  | VBool _ | VNum _ => Some VUndefined
  end.

(** [v?.k] *)
Definition opt_member (v : JSValue) (k : string) : JSValue :=
  default VUndefined (member v k).

(** [v.map(f)]: only an array has a [map] to call. *)
Definition as_array (v : JSValue) : option (list JSValue) :=
  match v with
  | VArr l => Some l
  | _ => None
  end.

(** ** The session object and its run-time context *)

Inductive Mode : Type := standalone | currentFile.

Global Instance Mode_eq_dec : EqDecision Mode.
Proof. solve_decision. Defined.

(** [class Protocol]. [extendHandler] answers [boolean | undefined];
    [extendConfig] is [this.options?.extendConfig]. The transport
    [_postMessage] is the outside world: its calls are trace events. *)
Record Protocol : Type := mkProtocol {
  ready : bool;
  pendingMessages : list Message;
  _editing_key : option string;
  _mode : Mode;
  extendHandler : option (Message → option bool);
  extendConfig : JSValue
}.

(** A flush loop of [postMessage] suspended at
    [await this._postMessage(msg)]: the message whose delivery is awaited
    and the messages of its local queue still to be delivered. *)
Record Flush : Type := mkFlush {
  inflight : Message;
  remaining : list Message
}.

Inductive ReviewOp : Type :=
| promptEditDescription
| addComment
| editComment
| resolveComment
| applySuggestion
| applyTranslationCandidate
| promptEditTranslation
| discardTranslationCandidate.

(** The calls the session makes. [EvPost] is a call of [postMessage];
    [EvTransport f m] is flush loop [f] calling the transport with [m];
    [EvAwaited f m] is loop [f] resuming after that delivery's promise
    was fulfilled. The loop number is the order in which loops started. *)
Inductive Event : Type :=
| EvPost (m : Message)
| EvTransport (f : nat) (m : Message)
| EvAwaited (f : nat) (m : Message)
| EvWrite (pendings : list Message)
| EvTranslateKeys (data : JSValue)
| EvReviews (op : ReviewOp) (args : list JSValue)
| EvExecuteCommand (args : list JSValue).

Record World : Type := mkWorld {
  session : Protocol;
  flushes : gmap nat Flush;
  next_flush : nat;
  trace : list Event
}.

Record TextDocument : Type := mkTextDocument {
  languageId : string;
  fsPath : string
}.

(** What the collaborators answer. [getRecordByKey k l] is
    [loader.getRecordByKey(k, l, true)] and [getNodeByKey k] is
    [loader.getNodeByKey(k, true)]; [loader_locales] is
    [Global.loader?.locales]; [activeDocument] is
    [window.activeTextEditor?.document]; [EXT_ID] and
    [Commands_open_editor] are constants of other modules. *)
Record Env : Type := mkEnv {
  getRecordByKey : JSValue → JSValue → JSValue;
  getNodeByKey : string → JSValue;
  getShadowLocales : JSValue → JSValue;
  getValueByKey : JSValue → JSValue;
  loader_locales : option (list JSValue);
  getReviews : string → JSValue;
  isLanguageIdSupported : string → bool;
  Config_debug : JSValue;
  Config_reviewEnabled : JSValue;
  Config_getFlagName : JSValue → JSValue;
  Config_sourceLanguage : JSValue;
  Config_displayLanguage : JSValue;
  Config_enabledFrameworks : JSValue;
  Config_ignoredLocales : JSValue;
  Config_translateOverrideExisting : JSValue;
  Config_reviewUser : JSValue;
  i18n_messages : JSValue;
  activeDocument : option TextDocument;
  getKeys : TextDocument → option (list Message);
  EXT_ID : JSValue;
  Commands_open_editor : JSValue
}.

(** Field updates. *)
Definition set_ready (b : bool) (p : Protocol) : Protocol :=
  mkProtocol b (pendingMessages p) (_editing_key p) (_mode p)
             (extendHandler p) (extendConfig p).

Definition set_pendingMessages (q : list Message) (p : Protocol) : Protocol :=
  mkProtocol (ready p) q (_editing_key p) (_mode p)
             (extendHandler p) (extendConfig p).

Definition set_editing_key (k : option string) (p : Protocol) : Protocol :=
  mkProtocol (ready p) (pendingMessages p) k (_mode p)
             (extendHandler p) (extendConfig p).

Definition set_mode (v : Mode) (p : Protocol) : Protocol :=
  mkProtocol (ready p) (pendingMessages p) (_editing_key p)
             (if decide (_mode p = v) then _mode p else v)
             (extendHandler p) (extendConfig p).

Definition with_session (f : Protocol → Protocol) (w : World) : World :=
  mkWorld (f (session w)) (flushes w) (next_flush w) (trace w).

Definition emit (evs : list Event) (w : World) : World :=
  mkWorld (session w) (flushes w) (next_flush w) (trace w ++ evs).

(** [new Protocol(_postMessage, extendHandler, options)] *)
Definition new_Protocol (hook : option (Message → option bool))
    (ext : JSValue) : World :=
  mkWorld (mkProtocol false [] None standalone hook ext) ∅ 0 [].

(** ** Message queue and gate *)

(** The loop [for (const msg of pendingMessages) await this._postMessage(msg)]
    up to its first [await]: the transport is called with the first
    message and the loop is suspended with the rest. *)
Definition flush_start (queue : list Message) (w : World) : World :=
  match queue with
  | [] => w
  | msg :: rest =>
      mkWorld (session w)
              (<[next_flush w := mkFlush msg rest]> (flushes w))
              (S (next_flush w))
              (trace w ++ [EvTransport (next_flush w) msg])
  end.

Definition postMessage (message : Message) (w : World) : World :=
  let w1 :=
    emit [EvPost message]
      (with_session
         (set_pendingMessages (pendingMessages (session w) ++ [message])) w) in
  if ready (session w1) then
    flush_start (pendingMessages (session w1))
                (with_session (set_pendingMessages []) w1)
  else w1.

(** The promise awaited by loop [f] is fulfilled: the loop resumes, and
    either calls the transport with its next message and suspends again,
    or ends. *)
Definition settle (f : nat) (w : World) : World :=
  match flushes w !! f with
  | None => w
  | Some fl =>
      match remaining fl with
      | [] =>
          mkWorld (session w) (delete f (flushes w)) (next_flush w)
                  (trace w ++ [EvAwaited f (inflight fl)])
      | msg :: rest =>
          mkWorld (session w) (<[f := mkFlush msg rest]> (flushes w))
                  (next_flush w)
                  (trace w ++ [EvAwaited f (inflight fl); EvTransport f msg])
      end
  end.

(** ** Config snapshot *)

(** [get config()] *)
Definition config (e : Env) (p : Protocol) : JSValue :=
  let locales := default [] (loader_locales e) in
  VObj (own_props (extendConfig p) ∪
        list_to_map
          [ ("debug", Config_debug e);
            ("review", Config_reviewEnabled e);
            ("locales", VArr locales);
            ("flags", VArr (Config_getFlagName e <$> locales));
            ("sourceLanguage", Config_sourceLanguage e);
            ("displayLanguage", Config_displayLanguage e);
            ("enabledFrameworks", Config_enabledFrameworks e);
            ("ignoredLocales", Config_ignoredLocales e);
            ("translateOverrideExisting", Config_translateOverrideExisting e);
            ("user", Config_reviewUser e) ]).

Definition updateConfig (e : Env) (w : World) : World :=
  postMessage {[ "type" := VStr "config"; "data" := config e (session w) ]} w.

Definition updateI18nMessages (e : Env) (w : World) : World :=
  postMessage {[ "type" := VStr "i18n"; "data" := i18n_messages e ]} w.

(** ** Key and record relay *)

(** The callback of [items.map] in [setRecords]; destructuring
    [{ keypath, locale, value }] throws on [undefined] and [null]. *)
Definition pending_of (e : Env) (item : JSValue) : option Message :=
  keypath ← member item "keypath";
  locale ← member item "locale";
  value ← member item "value";
  let record := getRecordByKey e keypath locale in
  Some {[ "keypath" := keypath;
          "locale" := locale;
          "value" := value;
          "filepath" := opt_member record "filepath";
          "namespace" := opt_member (opt_member record "meta") "namespace" ]}.

Definition setRecords (e : Env) (items : JSValue) (w : World) : option World :=
  l ← as_array items;
  pendings ← mapM (pending_of e) l;
  Some (emit [EvWrite pendings] w).

(** ** Context reporter *)

(** [setContext(context = {})] *)
Definition setContext (context : JSValue) (w : World) : World :=
  let context :=
    match context with
    | VUndefined => VObj ∅
    | _ => context
    end in
  postMessage {[ "type" := VStr "context"; "data" := context ]} w.

Definition sendCurrentFileContext (e : Env) (w : World) : bool * World :=
  let w := if decide (_mode (session w) = standalone)
           then setContext (VObj ∅) w else w in
  match activeDocument e with
  | None => (false, w)
  | Some doc =>
      if negb (isLanguageIdSupported e (languageId doc)) then (false, w)
      else
        let keys := default [] (getKeys e doc) in
        if decide (length keys = 0) then (false, w)
        else
          let keys :=
            (λ k, <["value" := getValueByKey e (get k "key")]> k) <$> keys in
          let context : Message :=
            {[ "filepath" := VStr (fsPath doc);
               "keys" := VArr (VObj <$> keys) ]} in
          (true, setContext (VObj context) w)
  end.

Definition openKey (e : Env) (keypath : string) (locale index : JSValue)
    (w : World) : World :=
  let node := getNodeByKey e keypath in
  if truthy node then
    let w := with_session (set_editing_key (Some keypath)) w in
    let data : Message :=
      {[ "locale" := locale;
         "keypath" := VStr keypath;
         "records" := getShadowLocales e node;
         "reviews" := getReviews e keypath;
         "keyIndex" := index ]} in
    let w :=
      postMessage {[ "type" := VStr "route";
                     "route" := VStr "open-key";
                     "data" := VObj data ]} w in
    (sendCurrentFileContext e w).2
  else w.

(** ** Dispatcher *)

(** [if (handled)] for the answer of the extension hook. *)
Definition handled (p : Protocol) (message : Message) : bool :=
  match extendHandler p with
  | Some hook =>
      match hook message with
      | Some b => b
      | None => false
      end
  | None => false
  end.

(** [{ ...data, _id: message._id }] *)
Definition reply_message (message : Message) (data : JSValue) : Message :=
  <["_id" := get message "_id"]> (own_props data).

Definition reply (message : Message) (data : JSValue) (w : World) : World :=
  postMessage (reply_message message data) w.

(** The callback of [message.items.map] under ['get_records']. *)
Definition record_of (e : Env) (i : JSValue) : option JSValue :=
  keypath ← member i "keypath";
  locale ← member i "locale";
  Some (getRecordByKey e keypath locale).

Definition reviews (op : ReviewOp) (args : list JSValue) (w : World)
    : option World :=
  Some (emit [EvReviews op args] w).

(** The [switch (message.type)]. *)
Definition dispatch (e : Env) (message : Message) (w : World) : option World :=
  let keypath := get message "keypath" in
  let locale := get message "locale" in
  match get message "type" with
  | VStr ty =>
      if decide (ty = "ready") then
        let w := with_session (set_ready true) w in
        let w := postMessage {[ "type" := VStr "ready" ]} w in
        let w := updateConfig e w in
        Some (updateI18nMessages e w)
      else if decide (ty = "init") then
        Some (updateI18nMessages e w)
      else if decide (ty = "get_record") then
        Some (reply message (getRecordByKey e keypath locale) w)
      else if decide (ty = "set_record") then
        setRecords e (VArr [VObj message]) w
      else if decide (ty = "get_records") then
        items ← as_array (get message "items");
        records ← mapM (record_of e) items;
        Some (reply message (VArr records) w)
      else if decide (ty = "set_records") then
        setRecords e (get message "items") w
      else if decide (ty = "translate") then
        Some (emit [EvTranslateKeys (get message "data")] w)
      else if decide (ty = "review.description") then
        reviews promptEditDescription [keypath] w
      else if decide (ty = "review.comment") then
        reviews addComment [keypath; locale; get message "data"] w
      else if decide (ty = "review.edit") then
        reviews editComment [keypath; locale; get message "data"] w
      else if decide (ty = "review.resolve") then
        reviews resolveComment [keypath; locale; get message "commentId"] w
      else if decide (ty = "review.apply-suggestion") then
        reviews applySuggestion [keypath; locale; get message "commentId"] w
      else if decide (ty = "open-builtin-settings") then
        Some (emit [EvExecuteCommand
                      [VStr "workbench.extensions.action.configure";
                       EXT_ID e]] w)
      else if decide (ty = "open-search") then
        Some (emit [EvExecuteCommand [Commands_open_editor e]] w)
      else if decide (ty = "translation.apply") then
        reviews applyTranslationCandidate [keypath; locale] w
      else if decide (ty = "translation.edit") then
        reviews promptEditTranslation [keypath; locale] w
      else if decide (ty = "translation.discard") then
        reviews discardTranslationCandidate [keypath; locale] w
      else Some w
  | _ => Some w
  end.

(** [handleMessages] from the point where the answer of the extension hook
    is known. Before that point the session is not written and only
    [extendHandler] is read, so the suspension at the hook's [await] is
    not a separate step. *)
Definition handleMessages (e : Env) (message : Message) (w : World)
    : option World :=
  if handled (session w) message then Some w
  else dispatch e message w.

(** ** The session over time *)

(** What can happen to a session: a call of one of its methods, one of
    the three notifications its constructor subscribes to, or the
    fulfilment of the promise a suspended flush loop awaits. *)
Inductive Action : Type :=
| CallPostMessage (message : Message)
| CallUpdateConfig
| CallUpdateI18nMessages
| CallSetRecords (items : JSValue)
| CallOpenKey (keypath : string) (locale index : JSValue)
| CallSetContext (context : JSValue)
| CallSendCurrentFileContext
| CallHandleMessages (message : Message)
| SetMode (v : Mode)
| LoaderDidChange
| ConfigurationDidChange
| ReviewsDidChange (keypath : option string)
| TransportFulfilled (f : nat).

(** [if (this._editing_key)]: the empty string is falsy too. *)
Definition editing (p : Protocol) : option string :=
  match _editing_key p with
  | Some k => if String.eqb k "" then None else Some k
  | None => None
  end.

(** The listener of [CurrentFile.loader.onDidChange]. *)
Definition onLoaderDidChange (e : Env) (w : World) : World :=
  match editing (session w) with
  | Some k => openKey e k VUndefined VUndefined w
  | None => w
  end.

(** The listener of [Global.reviews.onDidChange]. *)
Definition onReviewsDidChange (e : Env) (keypath : option string) (w : World)
    : World :=
  match editing (session w) with
  | Some k =>
      match keypath with
      | None => openKey e k VUndefined VUndefined w
      | Some kp =>
          if String.eqb kp "" then openKey e k VUndefined VUndefined w
          else if decide (k = kp) then openKey e k VUndefined VUndefined w
          else w
      end
  | None => w
  end.

(** One action, under the answers [e] of the collaborators at that
    moment. A call that throws leaves the session as it was. *)
Definition step (e : Env) (a : Action) (w : World) : World :=
  match a with
  | CallPostMessage message => postMessage message w
  | CallUpdateConfig => updateConfig e w
  | CallUpdateI18nMessages => updateI18nMessages e w
  | CallSetRecords items => default w (setRecords e items w)
  | CallOpenKey keypath locale index => openKey e keypath locale index w
  | CallSetContext context => setContext context w
  | CallSendCurrentFileContext => (sendCurrentFileContext e w).2
  | CallHandleMessages message => default w (handleMessages e message w)
  | SetMode v => with_session (set_mode v) w
  | LoaderDidChange => onLoaderDidChange e w
  | ConfigurationDidChange => updateConfig e w
  | ReviewsDidChange keypath => onReviewsDidChange e keypath w
  | TransportFulfilled f => settle f w
  end.

Fixpoint run (sched : list (Env * Action)) (w : World) : World :=
  match sched with
  | [] => w
  | (e, a) :: sched' => run sched' (step e a w)
  end.

(** ** Reading a trace *)

Definition post_of (ev : Event) : option Message :=
  match ev with
  | EvPost m => Some m
  | _ => None
  end.

Definition transport_of (ev : Event) : option Message :=
  match ev with
  | EvTransport _ m => Some m
  | _ => None
  end.

Definition flush_of (ev : Event) : option nat :=
  match ev with
  | EvTransport f _ | EvAwaited f _ => Some f
  | _ => None
  end.

(** The messages [postMessage] was called with, in call order. *)
Definition posts (tr : list Event) : list Message := omap post_of tr.

(** The messages the transport was called with, in call order. *)
Definition transports (tr : list Event) : list Message := omap transport_of tr.

(** The events of flush loop [f]. *)
Definition flush_trace (f : nat) (tr : list Event) : list Event :=
  filter (λ ev, flush_of ev = Some f) tr.

(** The events an operation added: the trace only grows. *)
Definition since (w w' : World) : list Event :=
  drop (length (trace w)) (trace w').

(** Loop [f] delivering [queue]: each message is handed to the transport
    and its delivery awaited before the next is. *)
Definition deliveries (f : nat) (queue : list Message) : list Event :=
  queue ≫= λ m, [EvTransport f m; EvAwaited f m].

(** What a suspended loop still has to do. *)
Definition to_do (f : nat) (fl : option Flush) : list Event :=
  match fl with
  | Some fl => EvAwaited f (inflight fl) :: deliveries f (remaining fl)
  | None => []
  end.

(** How often the schedule fulfils a promise awaited by loop [f]. *)
Fixpoint fulfilled (f : nat) (sched : list (Env * Action)) : nat :=
  match sched with
  | [] => 0
  | (_, TransportFulfilled g) :: sched' =>
      (if decide (g = f) then 1 else 0) + fulfilled f sched'
  | _ :: sched' => fulfilled f sched'
  end.

(** [message.type === ty] *)
Definition of_type (ty : string) (message : Message) : bool :=
  match get message "type" with
  | VStr s => bool_decide (s = ty)
  | _ => false
  end.

(** [case 'ready':] is reached. *)
Definition sets_ready (w : World) (a : Action) : bool :=
  match a with
  | CallHandleMessages message =>
      negb (handled (session w) message) && of_type "ready" message
  | _ => false
  end.

(** The five kinds of message the session builds under a [type]. *)
Definition outbound_types : list string :=
  ["ready"; "config"; "i18n"; "route"; "context"].

Definition typed_outbound (m : Message) : Prop :=
  ∃ ty, ty ∈ outbound_types ∧ m !! "type" = Some (VStr ty).

(** The data [reply] is called with for [inbound]: under ['get_record']
    the loader's record for the keypath and locale of the message, under
    ['get_records'] the array of the records of its items. *)
Definition reply_data (e : Env) (inbound : Message) (data : JSValue) : Prop :=
  (get inbound "type" = VStr "get_record" ∧
   data = getRecordByKey e (get inbound "keypath") (get inbound "locale")) ∨
  (get inbound "type" = VStr "get_records" ∧
   ∃ items records,
     get inbound "items" = VArr items ∧
     mapM (record_of e) items = Some records ∧
     data = VArr records).

(** A reply to [inbound]: the message [reply] builds from that data. *)
Definition reply_to (e : Env) (inbound m : Message) : Prop :=
  ∃ data, reply_data e inbound data ∧ m = reply_message inbound data.

(** The messages an action may hand to [postMessage]. *)
Definition queues (e : Env) (a : Action) (m : Message) : Prop :=
  typed_outbound m ∨
  (∃ inbound, a = CallHandleMessages inbound ∧ reply_to e inbound m) ∨
  a = CallPostMessage m.

(** A message with a non-empty string under [type]. *)
Definition has_type (m : Message) : Prop :=
  ∃ ty, m !! "type" = Some (VStr ty) ∧ ty ≠ "".

(** Events that neither queue nor deliver. *)
Definition quiet (ev : Event) : Prop :=
  post_of ev = None ∧ flush_of ev = None.

(** The elementary moves every operation but [settle] is made of, with
    [P] bounding what is posted. The [ready] flag and the queue are only
    touched through [postMessage]. *)
Inductive prim (P : Message → Prop) : World → World → Prop :=
| prim_post m w : P m → prim P w (postMessage m w)
| prim_emit evs w : Forall quiet evs → prim P w (emit evs w)
| prim_session f w :
    (∀ p, ready (f p) = ready p) →
    (∀ p, pendingMessages (f p) = pendingMessages p) →
    prim P w (with_session f w).

(** The gate: while the session is not ready nothing is in flight,
    nothing was handed to the transport, and the queue holds every
    message posted so far. *)
Definition gate_closed (w : World) : Prop :=
  ready (session w) = false →
  flushes w = ∅ ∧
  Forall (λ ev, flush_of ev = None) (trace w) ∧
  pendingMessages (session w) = posts (trace w).

(** The messages suspended loops hold behind the one in flight. *)
Definition waiting (fls : gmap nat Flush) : list Message :=
  map_to_list fls ≫= λ kf, remaining kf.2.

(** Every posted message is accounted for once: it was handed to the
    transport, or is in the queue, or waits in a suspended loop. Loop
    numbers not yet given out are not in use. *)
Definition accounted (w : World) : Prop :=
  (∀ f, next_flush w ≤ f → flushes w !! f = None) ∧
  posts (trace w) ≡ₚ
    transports (trace w) ++ pendingMessages (session w) ++ waiting (flushes w).

(** ** A sample session

    Concrete collaborators and messages on which the statements below
    are run. *)

Definition sample_record : JSValue :=
  VObj {[ "keypath" := VStr "a.b";
          "locale" := VStr "en";
          "value" := VStr "Hello";
          "filepath" := VStr "locales/en.json";
          "meta" := VObj {[ "namespace" := VStr "common" ]} ]}.

Definition sample_document : TextDocument :=
  mkTextDocument "vue" "/project/src/App.vue".

Definition sample_env : Env :=
  {| getRecordByKey := λ k l,
       match k, l with
       | VStr k, VStr l =>
           if String.eqb k "a.b" && String.eqb l "en" then sample_record
           else VUndefined
       | _, _ => VUndefined
       end;
     getNodeByKey := λ k,
       if String.eqb k "a.b" then VObj {[ "keypath" := VStr "a.b" ]}
       else VUndefined;
     getShadowLocales := λ _, VObj {[ "en" := sample_record ]};
     getValueByKey := λ k,
       match k with
       | VStr k => if String.eqb k "a.b" then VStr "Hello" else VUndefined
       | _ => VUndefined
       end;
     loader_locales := Some [VStr "en"; VStr "fr"];
     getReviews := λ _, VObj ∅;
     isLanguageIdSupported := λ l, String.eqb l "vue";
     Config_debug := VBool false;
     Config_reviewEnabled := VBool true;
     Config_getFlagName := λ l, l;
     Config_sourceLanguage := VStr "en";
     Config_displayLanguage := VStr "en";
     Config_enabledFrameworks := VUndefined;
     Config_ignoredLocales := VArr [];
     Config_translateOverrideExisting := VBool false;
     Config_reviewUser := VObj ∅;
     i18n_messages := VObj {[ "editor.title" := VStr "Editor" ]};
     activeDocument := Some sample_document;
     getKeys := λ _, Some [ {[ "key" := VStr "a.b"; "start" := VNum 10 ]} ];
     EXT_ID := VStr "lokalise.i18n-ally";
     Commands_open_editor := VStr "i18n-ally.open-editor" |}.

(** The same collaborators, with an active document of a supported
    language in which the key detector finds nothing. *)
Definition env_without_keys : Env :=
  mkEnv (getRecordByKey sample_env) (getNodeByKey sample_env)
        (getShadowLocales sample_env) (getValueByKey sample_env)
        (loader_locales sample_env) (getReviews sample_env)
        (isLanguageIdSupported sample_env) (Config_debug sample_env)
        (Config_reviewEnabled sample_env) (Config_getFlagName sample_env)
        (Config_sourceLanguage sample_env) (Config_displayLanguage sample_env)
        (Config_enabledFrameworks sample_env) (Config_ignoredLocales sample_env)
        (Config_translateOverrideExisting sample_env)
        (Config_reviewUser sample_env) (i18n_messages sample_env)
        (Some sample_document) (λ _, Some [])
        (EXT_ID sample_env) (Commands_open_editor sample_env).

(** A request for a record the loader does not have. *)
Definition get_missing_record_message : Message :=
  {[ "type" := VStr "get_record";
     "_id" := VNum 42;
     "keypath" := VStr "missing.key";
     "locale" := VStr "en" ]}.

Definition ready_message : Message := {[ "type" := VStr "ready" ]}.

Definition sample_message : Message :=
  {[ "type" := VStr "context"; "data" := VStr "x" ]}.

Definition sample_world : World := new_Protocol None VUndefined.

(** A hook that takes over ['set_record'] and nothing else. *)
Definition sample_hook (message : Message) : option bool :=
  if of_type "set_record" message then Some true else None.

Definition hooked_world : World := new_Protocol (Some sample_hook) VUndefined.

Definition sample_items : list Message :=
  [ {[ "keypath" := VStr "a.b"; "locale" := VStr "en" ]};
    {[ "keypath" := VStr "b"; "locale" := VStr "fr" ]} ].

Definition get_records_message : Message :=
  {[ "type" := VStr "get_records"; "items" := VArr (VObj <$> sample_items) ]}.

Definition sample_item : Message :=
  {[ "keypath" := VStr "a.b"; "locale" := VStr "en"; "value" := VStr "X" ]}.

Definition set_records_message : Message :=
  {[ "type" := VStr "set_records"; "items" := VArr [VObj sample_item] ]}.

Definition set_record_message : Message :=
  {[ "type" := VStr "set_record";
     "keypath" := VStr "a.b";
     "locale" := VStr "en";
     "value" := VStr "X" ]}.

(** ** Further notions *)

(** The fields of the session that the gate does not use. *)
Definition settings (p : Protocol)
    : option string * Mode * option (Message → option bool) * JSValue :=
  (_editing_key p, _mode p, extendHandler p, extendConfig p).

(** [undefined] and [null]: the values whose properties cannot be read. *)
Definition is_nullish (v : JSValue) : bool :=
  match v with
  | VUndefined | VNull => true
  | _ => false
  end.


(** The labels of the [switch] in [handleMessages]. *)
Definition recognized_types : list string :=
  [ "ready"; "init"; "get_record"; "set_record"; "get_records";
    "set_records"; "translate"; "review.description"; "review.comment";
    "review.edit"; "review.resolve"; "review.apply-suggestion";
    "open-builtin-settings"; "open-search"; "translation.apply";
    "translation.edit"; "translation.discard" ].


(** A schedule in which nothing happens but fulfilled deliveries. *)
Definition only_fulfilments (sched : list (Env * Action)) : Prop :=
  Forall (λ ea, ∃ f, ea.2 = TransportFulfilled f) sched.

(** Between operations a ready session has an empty queue. *)
Definition idle (w : World) : Prop :=
  ready (session w) = true → pendingMessages (session w) = [].

(** The route message of [openKey]. *)
Definition route_message (e : Env) (keypath : string) (locale index : JSValue)
    : Message :=
  {[ "type" := VStr "route";
     "route" := VStr "open-key";
     "data" :=
       VObj {[ "locale" := locale;
               "keypath" := VStr keypath;
               "records" := getShadowLocales e (getNodeByKey e keypath);
               "reviews" := getReviews e keypath;
               "keyIndex" := index ]} ]}.

(** * Properties *)

(** ** Reading traces *)

Lemma posts_app (tr1 tr2 : list Event) :
  posts (tr1 ++ tr2) = posts tr1 ++ posts tr2.
Proof. apply omap_app. Qed.

Lemma transports_app (tr1 tr2 : list Event) :
  transports (tr1 ++ tr2) = transports tr1 ++ transports tr2.
Proof. apply omap_app. Qed.

Lemma flush_trace_app (f : nat) (tr1 tr2 : list Event) :
  flush_trace f (tr1 ++ tr2) = flush_trace f tr1 ++ flush_trace f tr2.
Proof. apply filter_app. Qed.

Lemma flush_trace_skip (f : nat) (tr : list Event) :
  Forall (λ ev, flush_of ev ≠ Some f) tr → flush_trace f tr = [].
Proof.
  induction 1 as [|ev tr Hev _ IH]; [done|].
  unfold flush_trace in *. by rewrite filter_cons_False.
Qed.

Lemma flush_trace_none (f : nat) (tr : list Event) :
  Forall (λ ev, flush_of ev = None) tr → flush_trace f tr = [].
Proof.
  intros H. apply flush_trace_skip. eapply Forall_impl; [exact H|].
  simpl. congruence.
Qed.

Lemma transports_none (tr : list Event) :
  Forall (λ ev, flush_of ev = None) tr → transports tr = [].
Proof.
  induction 1 as [|ev tr Hev _ IH]; [done|].
  destruct ev; try discriminate; exact IH.
Qed.

Lemma quiet_posts (evs : list Event) : Forall quiet evs → posts evs = [].
Proof.
  induction 1 as [|ev evs [Hp _] _ IH]; [done|].
  destruct ev; try discriminate; exact IH.
Qed.

Lemma quiet_flush_of (evs : list Event) :
  Forall quiet evs → Forall (λ ev, flush_of ev = None) evs.
Proof. intros H. eapply Forall_impl; [exact H|]. by intros ev [_ ?]. Qed.

Lemma since_app (w w' : World) (evs : list Event) :
  trace w' = trace w ++ evs → since w w' = evs.
Proof. intros H. unfold since. rewrite H. apply drop_app_length. Qed.

(** ** The gate, case by case *)

Lemma postMessage_closed (m : Message) (w : World) :
  ready (session w) = false →
  postMessage m w =
  emit [EvPost m]
    (with_session (set_pendingMessages (pendingMessages (session w) ++ [m])) w).
Proof. intros Hr. unfold postMessage. simpl. by rewrite Hr. Qed.

Lemma postMessage_open (m : Message) (w : World) :
  ready (session w) = true →
  ∃ b rest,
    pendingMessages (session w) ++ [m] = b :: rest ∧
    postMessage m w =
    mkWorld (set_pendingMessages [] (session w))
            (<[next_flush w := mkFlush b rest]> (flushes w))
            (S (next_flush w))
            (trace w ++ [EvPost m; EvTransport (next_flush w) b]).
Proof.
  intros Hr. unfold postMessage. simpl. rewrite Hr.
  destruct (pendingMessages (session w) ++ [m]) as [|b rest] eqn:Hq.
  { by destruct (pendingMessages (session w)). }
  exists b, rest. split; [done|].
  unfold flush_start, with_session, emit, set_pendingMessages. simpl.
  by rewrite <-(assoc_L (++)).
Qed.

Lemma postMessage_ready (m : Message) (w : World) :
  ready (session (postMessage m w)) = ready (session w).
Proof.
  destruct (ready (session w)) eqn:Hr.
  - destruct (postMessage_open m w Hr) as (b & rest & _ & ->). done.
  - by rewrite postMessage_closed.
Qed.

(** ** What the elementary moves preserve *)

Lemma prim_ready (P : Message → Prop) (w w' : World) :
  prim P w w' → ready (session w') = ready (session w).
Proof.
  destruct 1 as [m w _|evs w _|f w Hf _]; simpl; auto using postMessage_ready.
Qed.

Lemma prim_gate (P : Message → Prop) (w w' : World) :
  prim P w w' → gate_closed w → gate_closed w'.
Proof.
  destruct 1 as [m w _|evs w Hq|f w Hf Hg]; intros G Hr.
  - rewrite postMessage_ready in Hr. destruct (G Hr) as (Hfl & Htr & Hpm).
    rewrite postMessage_closed by done. simpl. split_and!; [done| |].
    + apply Forall_app. split; [done|]. by repeat constructor.
    + by rewrite posts_app, Hpm.
  - simpl in *. destruct (G Hr) as (Hfl & Htr & Hpm). split_and!; [done| |].
    + apply Forall_app. split; [done|]. by apply quiet_flush_of.
    + by rewrite posts_app, (quiet_posts evs), (right_id_L [] (++)).
  - simpl in *. rewrite Hf in Hr. rewrite Hg. by apply G.
Qed.

Lemma prim_frame (P : Message → Prop) (w w' : World) (f : nat) :
  prim P w w' → f < next_flush w →
  flushes w' !! f = flushes w !! f ∧
  flush_trace f (trace w') = flush_trace f (trace w) ∧
  f < next_flush w'.
Proof.
  destruct 1 as [m w _|evs w Hq|g w _ _]; intros Hlt; simpl; [| |done].
  - destruct (ready (session w)) eqn:Hr.
    + destruct (postMessage_open m w Hr) as (b & rest & _ & ->). simpl.
      split_and!; [| |lia].
      * apply lookup_insert_ne. lia.
      * rewrite flush_trace_app, (flush_trace_skip f [_; _]),
          (right_id_L [] (++)); [done|].
        repeat constructor; simpl; [done|]. intros [=]. lia.
    + rewrite postMessage_closed by done. simpl. split_and!; [done| |done].
      rewrite flush_trace_app, (flush_trace_skip f [_]),
        (right_id_L [] (++)); [done|]. by repeat constructor.
  - split_and!; [done| |done].
    rewrite flush_trace_app, (flush_trace_none f evs), (right_id_L [] (++));
      [done|by apply quiet_flush_of].
Qed.

Lemma prim_posts (P : Message → Prop) (w w' : World) :
  prim P w w' → ∃ evs, trace w' = trace w ++ evs ∧ Forall P (posts evs).
Proof.
  destruct 1 as [m w Hm|evs w Hq|g w _ _]; simpl.
  - destruct (ready (session w)) eqn:Hr.
    + destruct (postMessage_open m w Hr) as (b & rest & _ & ->). simpl.
      eexists. split; [done|]. by repeat constructor.
    + rewrite postMessage_closed by done. simpl.
      eexists. split; [done|]. by repeat constructor.
  - exists evs. split; [done|]. by rewrite (quiet_posts evs).
  - exists []. by rewrite (right_id_L [] (++)).
Qed.

Section Footprint.
Context (P : Message → Prop).

Lemma steps_ready (w w' : World) :
  rtc (prim P) w w' → ready (session w') = ready (session w).
Proof.
  induction 1 as [|w1 w2 w3 H12 _ IH]; [done|].
  by rewrite IH, (prim_ready P w1 w2).
Qed.

Lemma steps_gate (w w' : World) :
  rtc (prim P) w w' → gate_closed w → gate_closed w'.
Proof. induction 1; eauto using prim_gate. Qed.

Lemma steps_frame (w w' : World) (f : nat) :
  rtc (prim P) w w' → f < next_flush w →
  flushes w' !! f = flushes w !! f ∧
  flush_trace f (trace w') = flush_trace f (trace w) ∧
  f < next_flush w'.
Proof.
  induction 1 as [|w1 w2 w3 H12 _ IH]; [done|]. intros Hlt.
  destruct (prim_frame P w1 w2 f H12 Hlt) as (E1 & E2 & Hlt2).
  destruct (IH Hlt2) as (E3 & E4 & Hlt3).
  by rewrite E3, E4, E1, E2.
Qed.

Lemma steps_posts (w w' : World) :
  rtc (prim P) w w' →
  ∃ evs, trace w' = trace w ++ evs ∧ Forall P (posts evs).
Proof.
  induction 1 as [w|w1 w2 w3 H12 _ (evs2 & E2 & F2)].
  - exists []. by rewrite (right_id_L [] (++)).
  - destruct (prim_posts P w1 w2 H12) as (evs1 & E1 & F1).
    exists (evs1 ++ evs2). rewrite E2, E1, (assoc_L (++)). split; [done|].
    rewrite posts_app. by apply Forall_app.
Qed.

Lemma postMessage_steps (m : Message) (w : World) :
  P m → rtc (prim P) w (postMessage m w).
Proof. intros Hm. apply rtc_once. by constructor. Qed.

Lemma emit_steps (evs : list Event) (w : World) :
  Forall quiet evs → rtc (prim P) w (emit evs w).
Proof. intros Hq. apply rtc_once. by constructor. Qed.

Lemma setRecords_steps (e : Env) (items : JSValue) (w w' : World) :
  setRecords e items w = Some w' → rtc (prim P) w w'.
Proof.
  unfold setRecords. intros H. simplify_option_eq.
  apply emit_steps. by repeat constructor.
Qed.

Hypothesis typed_ok : ∀ m, typed_outbound m → P m.

Lemma typed_steps (ty : string) (m : Message) (w : World) :
  ty ∈ outbound_types → m !! "type" = Some (VStr ty) →
  rtc (prim P) w (postMessage m w).
Proof. intros Hty Hm. apply postMessage_steps, typed_ok. by exists ty. Qed.

Lemma updateConfig_steps (e : Env) (w : World) :
  rtc (prim P) w (updateConfig e w).
Proof. apply (typed_steps "config"); [set_solver|done]. Qed.

Lemma updateI18nMessages_steps (e : Env) (w : World) :
  rtc (prim P) w (updateI18nMessages e w).
Proof. apply (typed_steps "i18n"); [set_solver|done]. Qed.

Lemma setContext_steps (context : JSValue) (w : World) :
  rtc (prim P) w (setContext context w).
Proof. apply (typed_steps "context"); [set_solver|done]. Qed.

Lemma sendCurrentFileContext_steps (e : Env) (w : World) :
  rtc (prim P) w (sendCurrentFileContext e w).2.
Proof.
  unfold sendCurrentFileContext.
  repeat case_match; simpl; try done; try apply setContext_steps.
  etrans; apply setContext_steps.
Qed.

Lemma openKey_steps (e : Env) (keypath : string) (locale index : JSValue)
    (w : World) :
  rtc (prim P) w (openKey e keypath locale index w).
Proof.
  unfold openKey. case_match; [|done].
  eapply rtc_l; [by apply (prim_session P (set_editing_key (Some keypath)))|].
  etrans; [|apply sendCurrentFileContext_steps].
  apply (typed_steps "route"); [set_solver|done].
Qed.

Lemma onLoaderDidChange_steps (e : Env) (w : World) :
  rtc (prim P) w (onLoaderDidChange e w).
Proof.
  unfold onLoaderDidChange. case_match; [apply openKey_steps|done].
Qed.

Lemma onReviewsDidChange_steps (e : Env) (keypath : option string)
    (w : World) :
  rtc (prim P) w (onReviewsDidChange e keypath w).
Proof.
  unfold onReviewsDidChange.
  repeat case_match; try done; apply openKey_steps.
Qed.
End Footprint.

Lemma queues_typed (e : Env) (a : Action) (m : Message) :
  typed_outbound m → queues e a m.
Proof. by left. Qed.

Lemma reply_steps (e : Env) (inbound : Message) (data : JSValue) (w : World) :
  reply_data e inbound data →
  rtc (prim (queues e (CallHandleMessages inbound))) w (reply inbound data w).
Proof.
  intros Hdata. apply postMessage_steps. right; left.
  exists inbound. split; [done|]. by exists data.
Qed.

Lemma as_array_Some (v : JSValue) (l : list JSValue) :
  as_array v = Some l → v = VArr l.
Proof. destruct v; simpl; congruence. Qed.

Lemma of_type_true (ty : string) (m : Message) :
  of_type ty m = true ↔ get m "type" = VStr ty.
Proof.
  unfold of_type. split.
  - destruct (get m "type"); try done. by intros ->%bool_decide_eq_true.
  - intros ->. by apply bool_decide_eq_true.
Qed.

Lemma dispatch_ready (e : Env) (m : Message) (w : World) :
  get m "type" = VStr "ready" →
  dispatch e m w =
  Some (updateI18nMessages e
          (updateConfig e
             (postMessage ready_message
                (with_session (set_ready true) w)))).
Proof. intros Hty. unfold dispatch. by rewrite Hty, decide_True. Qed.

Lemma dispatch_steps (e : Env) (m : Message) (w w' : World) :
  dispatch e m w = Some w' →
  rtc (prim (queues e (CallHandleMessages m)))
      (if of_type "ready" m then with_session (set_ready true) w else w) w'.
Proof.
  pose proof (queues_typed e (CallHandleMessages m)) as Hq.
  destruct (of_type "ready" m) eqn:Hready.
  { apply of_type_true in Hready. rewrite dispatch_ready by done.
    intros [= <-].
    etrans; [|apply updateI18nMessages_steps, Hq].
    etrans; [|apply updateConfig_steps, Hq].
    apply (typed_steps _ Hq "ready"); [set_solver|done]. }
  unfold dispatch, reviews.
  destruct (get m "type") as [| | | |ty| |] eqn:Hty;
    try (intros [= <-]; done).
  repeat case_decide; subst; intros Hd; simplify_option_eq;
    eauto using updateI18nMessages_steps, setRecords_steps.
  all: try (apply emit_steps; by repeat constructor).
  all: try done.
  - by rewrite (proj2 (of_type_true "ready" m) Hty) in Hready.
  - apply reply_steps. by left.
  - apply reply_steps. right. split; [done|].
    match goal with
    | Ha : as_array _ = Some ?l, Hr : mapM _ ?l = Some ?r |- _ =>
        exists l, r; split_and!; [by apply as_array_Some|done|done]
    end.
Qed.

Lemma step_steps (e : Env) (a : Action) (w : World) :
  (∀ f, a ≠ TransportFulfilled f) →
  rtc (prim (queues e a))
      (if sets_ready w a then with_session (set_ready true) w else w)
      (step e a w).
Proof.
  pose proof (queues_typed e a) as Hq.
  destruct a; intros Hne; simpl;
    eauto using updateConfig_steps, updateI18nMessages_steps, openKey_steps,
      setContext_steps, sendCurrentFileContext_steps,
      onLoaderDidChange_steps, onReviewsDidChange_steps.
  - apply postMessage_steps. by right; right.
  - destruct (setRecords e items w) as [w'|] eqn:Hs; simpl; [|done].
    by eapply setRecords_steps.
  - unfold handleMessages. destruct (handled (session w) message); simpl.
    { done. }
    destruct (dispatch e message w) as [w'|] eqn:Hd; simpl.
    + by apply (dispatch_steps e).
    + destruct (of_type "ready" message) eqn:Hready; [|done].
      apply of_type_true in Hready.
      by rewrite (dispatch_ready e message w Hready) in Hd.
  - apply rtc_once. apply prim_session; intros p; done.
  - by destruct (Hne f).
Qed.

(** ** Steps and runs *)

Lemma action_cases (a : Action) :
  (∃ f, a = TransportFulfilled f) ∨ (∀ f, a ≠ TransportFulfilled f).
Proof. destruct a; eauto. Qed.

Lemma fulfils_cases (a : Action) (f : nat) :
  a = TransportFulfilled f ∨ a ≠ TransportFulfilled f.
Proof.
  destruct a as [| | | | | | | | | | | |g]; try by right.
  destruct (decide (g = f)) as [->|Hne]; [by left|right; congruence].
Qed.

Lemma settle_session (f : nat) (w : World) : session (settle f w) = session w.
Proof. unfold settle. by repeat case_match. Qed.

Lemma step_ready (e : Env) (a : Action) (w : World) :
  ready (session (step e a w)) = ready (session w) || sets_ready w a.
Proof.
  destruct (action_cases a) as [[f ->]|Hne].
  { simpl. by rewrite settle_session, orb_false_r. }
  rewrite (steps_ready _ _ _ (step_steps e a w Hne)).
  destruct (sets_ready w a); simpl; [by rewrite orb_true_r|].
  by rewrite orb_false_r.
Qed.

Lemma step_gate (e : Env) (a : Action) (w : World) :
  gate_closed w → gate_closed (step e a w).
Proof.
  intros G.
  destruct (action_cases a) as [[f ->]|Hne].
  { intros Hr. simpl in *. rewrite settle_session in Hr.
    destruct (G Hr) as (Hfl & _). unfold settle.
    rewrite Hfl, lookup_empty. by apply G. }
  eapply steps_gate; [by apply step_steps|].
  destruct (sets_ready w a); [|done]. by intros Hr.
Qed.

Lemma new_Protocol_gate (hook : option (Message → option bool))
    (ext : JSValue) :
  gate_closed (new_Protocol hook ext).
Proof. by intros _. Qed.

Lemma run_gate (sched : list (Env * Action)) (w : World) :
  gate_closed w → gate_closed (run sched w).
Proof.
  revert w. induction sched as [|[e a] sched IH]; intros w G; [done|].
  simpl. by apply IH, step_gate.
Qed.

Lemma step_frame (e : Env) (a : Action) (w : World) (f : nat) :
  a ≠ TransportFulfilled f → f < next_flush w →
  flushes (step e a w) !! f = flushes w !! f ∧
  flush_trace f (trace (step e a w)) = flush_trace f (trace w) ∧
  f < next_flush (step e a w).
Proof.
  intros Hne Hlt.
  destruct (action_cases a) as [[g ->]|Hs].
  { assert (g ≠ f) by congruence. simpl. unfold settle.
    destruct (flushes w !! g) as [fl|]; [|done].
    destruct (remaining fl) as [|msg rest]; simpl.
    - rewrite lookup_delete_ne by done. split_and!; [done| |done].
      rewrite flush_trace_app, (flush_trace_skip f [_]),
        (right_id_L [] (++)); [done|].
      repeat constructor. simpl. congruence.
    - rewrite lookup_insert_ne by done. split_and!; [done| |done].
      rewrite flush_trace_app, (flush_trace_skip f [_; _]),
        (right_id_L [] (++)); [done|].
      repeat constructor; simpl; congruence. }
  pose proof (steps_frame _ _ _ f (step_steps e a w Hs)) as Hf.
  destruct (sets_ready w a); by apply Hf.
Qed.

Lemma take_to_do_nil (n : nat) (f : nat) : take n (to_do f None) = [].
Proof. by destruct n. Qed.

(** The events of a loop after a run: for each fulfilment of a promise
    it awaits, the loop resumes and calls the transport with its next
    message, until its queue is exhausted. *)
Lemma flush_progress (f : nat) (sched : list (Env * Action)) (w : World) :
  f < next_flush w →
  flush_trace f (trace (run sched w)) =
  flush_trace f (trace w) ++
  take (2 * fulfilled f sched) (to_do f (flushes w !! f)).
Proof.
  revert w. induction sched as [|[e a] sched IH]; intros w Hlt.
  { simpl. by rewrite take_0, (right_id_L [] (++)). }
  destruct (fulfils_cases a f) as [->|Hne].
  - cbn [run step fulfilled]. rewrite decide_True by done.
    replace (2 * (1 + fulfilled f sched)) with (S (S (2 * fulfilled f sched)))
      by lia.
    remember (2 * fulfilled f sched) as n eqn:Hn in *. clear Hn.
    rewrite IH; unfold settle; destruct (flushes w !! f) as [fl|] eqn:Hfl;
      try destruct (remaining fl) as [|msg rest] eqn:Hrem; try done.
    + cbn [flushes trace]. rewrite lookup_delete_eq, take_to_do_nil.
      rewrite flush_trace_app, (right_id_L [] (++)). f_equal.
      unfold to_do. rewrite Hrem. unfold flush_trace.
      rewrite filter_cons_True by done. by rewrite filter_nil.
    + cbn [flushes trace]. rewrite lookup_insert_eq.
      rewrite flush_trace_app, <-(assoc_L (++)). f_equal.
      unfold to_do. rewrite Hrem. unfold flush_trace.
      rewrite filter_cons_True by done. rewrite filter_cons_True by done.
      by rewrite filter_nil.
    + by rewrite Hfl, !take_to_do_nil.
  - destruct (step_frame e a w f Hne Hlt) as (E1 & E2 & Hlt').
    simpl run. rewrite IH by done. rewrite E1, E2. f_equal. f_equal.
    destruct a; simpl; try done. by rewrite decide_False by congruence.
Qed.

(** ** No message lost, none duplicated *)

Lemma waiting_insert (fls : gmap nat Flush) (f : nat) (fl : Flush) :
  fls !! f = None → waiting (<[f := fl]> fls) ≡ₚ remaining fl ++ waiting fls.
Proof.
  intros Hf. unfold waiting. by rewrite map_to_list_insert.
Qed.

Lemma waiting_delete (fls : gmap nat Flush) (f : nat) (fl : Flush) :
  fls !! f = Some fl → waiting fls ≡ₚ remaining fl ++ waiting (delete f fls).
Proof.
  intros Hf. unfold waiting. by rewrite <-(map_to_list_delete fls f fl).
Qed.

Lemma waiting_replace (fls : gmap nat Flush) (f : nat) (fl : Flush) :
  waiting (<[f := fl]> fls) ≡ₚ remaining fl ++ waiting (delete f fls).
Proof.
  rewrite <-insert_delete_eq. apply waiting_insert, lookup_delete_eq.
Qed.

Lemma prim_accounted (P : Message → Prop) (w w' : World) :
  prim P w w' → accounted w → accounted w'.
Proof.
  destruct 1 as [m w _|evs w Hq|g w _ Hg]; intros [Hfresh Hacc].
  - destruct (ready (session w)) eqn:Hr.
    + destruct (postMessage_open m w Hr) as (b & rest & Hq & ->).
      split; simpl.
      * intros f Hf. rewrite lookup_insert_ne by lia. apply Hfresh. lia.
      * rewrite posts_app, transports_app, waiting_insert by auto. simpl.
        rewrite Hacc, <-!(assoc_L (++)).
        f_equiv. rewrite (comm (++) (waiting _) [m]), (assoc_L (++)), Hq.
        done.
    + rewrite postMessage_closed by done. split; [done|]. simpl.
      rewrite posts_app, transports_app, Hacc. simpl.
      rewrite (right_id_L [] (++)), <-!(assoc_L (++)).
      do 2 f_equiv. apply (comm (++)).
  - split; [done|]. simpl.
    rewrite posts_app, transports_app, (quiet_posts evs),
      (transports_none evs), !(right_id_L [] (++)); auto using quiet_flush_of.
  - split; [done|]. simpl. by rewrite Hg.
Qed.

Lemma steps_accounted (P : Message → Prop) (w w' : World) :
  rtc (prim P) w w' → accounted w → accounted w'.
Proof. induction 1; eauto using prim_accounted. Qed.

Lemma settle_accounted (f : nat) (w : World) :
  accounted w → accounted (settle f w).
Proof.
  intros [Hfresh Hacc]. unfold settle.
  destruct (flushes w !! f) as [fl|] eqn:Hfl; [|done].
  destruct (remaining fl) as [|msg rest] eqn:Hrem; split; simpl.
  - intros g Hg. destruct (decide (g = f)) as [->|].
    + apply lookup_delete_eq.
    + rewrite lookup_delete_ne by done. by apply Hfresh.
  - rewrite posts_app, transports_app. simpl.
    rewrite !(right_id_L [] (++)), Hacc.
    do 2 f_equiv. by rewrite (waiting_delete _ f fl), Hrem.
  - intros g Hg. destruct (decide (g = f)) as [->|].
    + by rewrite Hfresh in Hfl.
    + rewrite lookup_insert_ne by done. by apply Hfresh.
  - rewrite posts_app, transports_app, waiting_replace. simpl.
    rewrite (right_id_L [] (++)), Hacc, (waiting_delete _ f fl), Hrem by done.
    rewrite <-!(assoc_L (++)). f_equiv. simpl.
    symmetry. apply Permutation_middle.
Qed.

Lemma step_accounted (e : Env) (a : Action) (w : World) :
  accounted w → accounted (step e a w).
Proof.
  intros Hacc. destruct (action_cases a) as [[f ->]|Hne].
  { by apply settle_accounted. }
  eapply steps_accounted; [by apply step_steps|].
  by destruct (sets_ready w a).
Qed.

Lemma run_accounted (sched : list (Env * Action)) (w : World) :
  accounted w → accounted (run sched w).
Proof.
  revert w. induction sched as [|[e a] sched IH]; intros w G; [done|].
  simpl. by apply IH, step_accounted.
Qed.

Lemma new_Protocol_accounted (hook : option (Message → option bool))
    (ext : JSValue) :
  accounted (new_Protocol hook ext).
Proof. split; [done|]. simpl. by unfold waiting; rewrite map_to_list_empty. Qed.

Lemma accounted_once (w : World) :
  accounted w → transports (trace w) ⊆+ posts (trace w).
Proof. intros [_ ->]. by apply submseteq_inserts_r. Qed.

(** ** The gate opens *)

Lemma run_ready (sched : list (Env * Action)) (w : World) :
  ready (session w) = true → ready (session (run sched w)) = true.
Proof.
  revert w. induction sched as [|[e a] sched IH]; intros w Hr; [done|].
  simpl. apply IH. by rewrite step_ready, Hr.
Qed.

Lemma transports_deliveries (f : nat) (queue : list Message) (s : nat) :
  transports (take (2 * s + 1) (deliveries f queue)) = take (s + 1) queue.
Proof.
  revert s. induction queue as [|m queue IH]; intros s.
  { change (deliveries f []) with (@nil Event). by rewrite !take_nil. }
  destruct s as [|s]; [reflexivity|].
  replace (2 * S s + 1) with (S (S (2 * s + 1))) by lia.
  replace (S s + 1) with (S (s + 1)) by lia.
  unfold deliveries. rewrite bind_cons. cbn [app take].
  change (transports (?a :: ?b :: ?l)) with (m :: transports l).
  f_equal. apply IH.
Qed.

(** Handling a ['ready'] message that the hook leaves alone starts one
    loop over the whole queue with the acknowledgement at its end. *)
Lemma ready_starts_flush (e : Env) (message : Message) (w : World) :
  gate_closed w →
  ready (session w) = false →
  get message "type" = VStr "ready" →
  handled (session w) message = false →
  let f := next_flush w in
  let w' := step e (CallHandleMessages message) w in
  ∃ b rest,
    posts (trace w) ++ [ready_message] = b :: rest ∧
    f < next_flush w' ∧
    flushes w' !! f = Some (mkFlush b rest) ∧
    flush_trace f (trace w') = [EvTransport f b].
Proof.
  intros G Hr Hty Hh f w'. subst w'. simpl. unfold handleMessages.
  rewrite Hh, dispatch_ready by done. simpl.
  destruct (G Hr) as (_ & Htr & Hpm).
  destruct (postMessage_open ready_message (with_session (set_ready true) w))
    as (b & rest & Hq & Hw); [done|].
  exists b, rest. split; [by rewrite <-Hpm|].
  pose (P := λ _ : Message, True).
  assert (rtc (prim P)
            (postMessage ready_message (with_session (set_ready true) w))
            (updateI18nMessages e
               (updateConfig e
                  (postMessage ready_message
                     (with_session (set_ready true) w))))) as Hs.
  { etrans; [apply updateConfig_steps|apply updateI18nMessages_steps]; done. }
  apply (steps_frame _ _ _ f) in Hs; [|rewrite Hw; simpl; lia].
  destruct Hs as (-> & -> & Hlt). rewrite Hw. simpl.
  split_and!; [by rewrite Hw in Hlt|apply lookup_insert_eq|].
  rewrite flush_trace_app, (flush_trace_none f (trace w)) by done.
  unfold flush_trace. rewrite filter_cons_False by done.
  by rewrite filter_cons_True.
Qed.

Lemma ready_flush_trace (e : Env) (message : Message) (w : World)
    (after : list (Env * Action)) :
  gate_closed w →
  ready (session w) = false →
  get message "type" = VStr "ready" →
  handled (session w) message = false →
  flush_trace (next_flush w)
    (trace (run after (step e (CallHandleMessages message) w))) =
  take (2 * fulfilled (next_flush w) after + 1)
       (deliveries (next_flush w) (posts (trace w) ++ [ready_message])).
Proof.
  intros G Hr Hty Hh.
  destruct (ready_starts_flush e message w G Hr Hty Hh)
    as (b & rest & Hq & Hlt & Hfl & Hft).
  cbv zeta in Hlt, Hfl, Hft. rewrite flush_progress by done.
  rewrite Hfl, Hft, Hq.
  by replace (2 * fulfilled (next_flush w) after + 1)
    with (S (2 * fulfilled (next_flush w) after)) by lia.
Qed.

(** C1. Whatever was done with the session before, as long as it is not
    ready no message has reached the transport and the queue holds every
    posted message. When a ['ready'] message is then handled, one flush
    loop takes the whole queue followed by the acknowledgement, and after
    any further run its events are exactly: each message handed to the
    transport, its delivery awaited, then the next, in the order of
    posting, one more message for each fulfilled delivery. A message
    posted twice is in the queue twice and is delivered twice. Once as
    many deliveries were fulfilled as messages were buffered, all of them
    and the acknowledgement have been handed to the transport. Over the
    whole trace no message is handed to the transport more often than it
    was posted. *)
Theorem gate_buffers_then_flushes_in_order
    (hook : option (Message → option bool)) (ext : JSValue)
    (before after : list (Env * Action)) (e : Env) (message : Message) :
  let w := run before (new_Protocol hook ext) in
  let f := next_flush w in
  let w' := run after (step e (CallHandleMessages message) w) in
  ready (session w) = false →
  get message "type" = VStr "ready" →
  handled (session w) message = false →
  (transports (trace w) = [] ∧
   pendingMessages (session w) = posts (trace w)) ∧
  ready (session w') = true ∧
  flush_trace f (trace w') =
    take (2 * fulfilled f after + 1)
         (deliveries f (posts (trace w) ++ [ready_message])) ∧
  transports (flush_trace f (trace w')) =
    take (fulfilled f after + 1) (posts (trace w) ++ [ready_message]) ∧
  (length (posts (trace w)) ≤ fulfilled f after →
   transports (flush_trace f (trace w')) =
     posts (trace w) ++ [ready_message]) ∧
  transports (trace w') ⊆+ posts (trace w').
Proof.
  intros w f w' Hr Hty Hh.
  assert (gate_closed w) as G by apply run_gate, new_Protocol_gate.
  assert (accounted w) as A by apply run_accounted, new_Protocol_accounted.
  destruct (G Hr) as (_ & Htr & Hpm).
  pose proof (ready_flush_trace e message w after G Hr Hty Hh) as Hft.
  fold f w' in Hft.
  split_and!.
  - by apply transports_none.
  - done.
  - apply run_ready. rewrite step_ready. simpl.
    by rewrite Hh, (proj2 (of_type_true "ready" message) Hty), orb_true_r.
  - done.
  - by rewrite Hft, transports_deliveries.
  - intros Hall. rewrite Hft, transports_deliveries.
    apply take_ge. rewrite length_app. simpl. lia.
  - by apply accounted_once, run_accounted, step_accounted.
Qed.

Lemma gate_buffers_then_flushes_in_order_witness :
  let before := [(sample_env, CallPostMessage sample_message);
                 (sample_env, CallPostMessage sample_message)] in
  let after := [(sample_env, TransportFulfilled 0);
                (sample_env, TransportFulfilled 0)] in
  transports
    (flush_trace 0
       (trace (run after
                 (step sample_env (CallHandleMessages ready_message)
                    (run before sample_world))))) =
  [sample_message; sample_message; ready_message].
Proof.
  intros before after.
  exact (proj1 (proj2 (proj2 (proj2
    (gate_buffers_then_flushes_in_order None VUndefined before after
       sample_env ready_message eq_refl eq_refl eq_refl))))).
Defined.

(** ** Posting, seen from the trace *)

Lemma postMessage_trace (m : Message) (w : World) :
  ∃ evs, trace (postMessage m w) = trace w ++ evs ∧ posts evs = [m].
Proof.
  destruct (ready (session w)) eqn:Hr.
  - destruct (postMessage_open m w Hr) as (b & rest & _ & ->). simpl. eauto.
  - rewrite postMessage_closed by done. simpl. eauto.
Qed.

Lemma postMessage_since (m : Message) (w : World) :
  posts (since w (postMessage m w)) = [m].
Proof.
  destruct (postMessage_trace m w) as (evs & Ht & Hp).
  by rewrite (since_app _ _ _ Ht).
Qed.

Lemma postMessage_extendConfig (m : Message) (w : World) :
  extendConfig (session (postMessage m w)) = extendConfig (session w).
Proof.
  destruct (ready (session w)) eqn:Hr.
  - by destruct (postMessage_open m w Hr) as (b & rest & _ & ->).
  - by rewrite postMessage_closed.
Qed.

Lemma config_extendConfig (e : Env) (p p' : Protocol) :
  extendConfig p = extendConfig p' → config e p = config e p'.
Proof. unfold config. by intros ->. Qed.

(** ** The ready flag *)

(** C2. A new session is not ready. After any action the flag is what it
    was, or true when the action is [handleMessages] reaching
    [case 'ready'] (a message of type ['ready'] that the hook did not
    take): nothing sets it back. Reaching that case posts the
    acknowledgement, then the config snapshot, then the i18n messages. *)
Theorem ready_flag_lifecycle :
  (∀ hook ext, ready (session (new_Protocol hook ext)) = false) ∧
  (∀ e a w,
     ready (session (step e a w)) = ready (session w) || sets_ready w a) ∧
  (∀ e message w,
     get message "type" = VStr "ready" →
     handled (session w) message = false →
     ∃ w',
       handleMessages e message w = Some w' ∧
       ready (session w') = true ∧
       posts (since w w') =
       [ {[ "type" := VStr "ready" ]};
         {[ "type" := VStr "config"; "data" := config e (session w) ]};
         {[ "type" := VStr "i18n"; "data" := i18n_messages e ]} ]).
Proof.
  split_and!; [done|apply step_ready|].
  intros e message w Hty Hh. unfold handleMessages.
  rewrite Hh, dispatch_ready by done. eexists. split; [done|].
  set (w0 := with_session (set_ready true) w).
  set (w1 := postMessage ready_message w0).
  set (w2 := updateConfig e w1).
  split.
  { unfold updateI18nMessages, w2, updateConfig, w1.
    by rewrite !postMessage_ready. }
  destruct (postMessage_trace ready_message w0) as (evs1 & Ht1 & Hp1).
  destruct (postMessage_trace
              {[ "type" := VStr "config"; "data" := config e (session w1) ]} w1)
    as (evs2 & Ht2 & Hp2).
  destruct (postMessage_trace
              {[ "type" := VStr "i18n"; "data" := i18n_messages e ]} w2)
    as (evs3 & Ht3 & Hp3).
  rewrite (since_app w _ (evs1 ++ evs2 ++ evs3)).
  - rewrite !posts_app, Hp1, Hp2, Hp3. simpl.
    rewrite (config_extendConfig e (session w1) (session w)); [done|].
    unfold w1. by rewrite postMessage_extendConfig.
  - unfold updateI18nMessages. rewrite Ht3. unfold w2, updateConfig.
    rewrite Ht2. unfold w1. rewrite Ht1. simpl. by rewrite <-!(assoc_L (++)).
Qed.

Lemma ready_flag_lifecycle_witness :
  ready (session (step sample_env (CallHandleMessages ready_message)
                    sample_world)) = true ∧
  ∃ w',
    handleMessages sample_env ready_message sample_world = Some w' ∧
    ready (session w') = true ∧
    posts (since sample_world w') =
    [ {[ "type" := VStr "ready" ]};
      {[ "type" := VStr "config";
         "data" := config sample_env (session sample_world) ]};
      {[ "type" := VStr "i18n"; "data" := i18n_messages sample_env ]} ].
Proof.
  split.
  - by rewrite (proj1 (proj2 ready_flag_lifecycle)).
  - apply (proj2 (proj2 ready_flag_lifecycle)); reflexivity.
Defined.

(** ** Reply correlation *)

Lemma reply_message_id (message : Message) (data : JSValue) :
  reply_message message data !! "_id" = Some (get message "_id").
Proof. apply lookup_insert_eq. Qed.

Lemma dispatch_get_record (e : Env) (message : Message) (w : World) :
  get message "type" = VStr "get_record" →
  dispatch e message w =
  Some (reply message
          (getRecordByKey e (get message "keypath") (get message "locale")) w).
Proof. intros Hty. unfold dispatch. by rewrite Hty. Qed.

Lemma dispatch_get_records (e : Env) (message : Message) (w : World) :
  get message "type" = VStr "get_records" →
  dispatch e message w =
  items ← as_array (get message "items");
  records ← mapM (record_of e) items;
  Some (reply message (VArr records) w).
Proof. intros Hty. unfold dispatch. by rewrite Hty. Qed.

(** C3. A ['get_record'] message with [_id = n] that the hook leaves
    alone is answered by exactly one queued message, whose [_id] is [n];
    so is a ['get_records'] message whenever its handling returns. *)
Theorem reply_echoes_correlation_id
    (e : Env) (message : Message) (w : World) (n : Z) :
  message !! "_id" = Some (VNum n) →
  handled (session w) message = false →
  (get message "type" = VStr "get_record" →
   ∃ w' r,
     handleMessages e message w = Some w' ∧
     posts (since w w') = [r] ∧ r !! "_id" = Some (VNum n)) ∧
  (get message "type" = VStr "get_records" →
   ∀ w',
     handleMessages e message w = Some w' →
     ∃ r, posts (since w w') = [r] ∧ r !! "_id" = Some (VNum n)).
Proof.
  intros Hid Hh. unfold handleMessages. rewrite Hh.
  assert (get message "_id" = VNum n) as Hget by (unfold get; by rewrite Hid).
  split; intros Hty.
  - rewrite dispatch_get_record by done. do 2 eexists.
    split; [done|]. split; [apply postMessage_since|].
    by rewrite reply_message_id, Hget.
  - rewrite dispatch_get_records by done. intros w' Hw'.
    simplify_option_eq. eexists.
    split; [apply postMessage_since|].
    by rewrite reply_message_id, Hget.
Qed.

Lemma reply_echoes_correlation_id_witness :
  ∃ w' r,
    handleMessages sample_env
      {[ "type" := VStr "get_record"; "_id" := VNum 42;
         "keypath" := VStr "a.b"; "locale" := VStr "en" ]}
      sample_world = Some w' ∧
    posts (since sample_world w') = [r] ∧ r !! "_id" = Some (VNum 42).
Proof.
  apply (reply_echoes_correlation_id sample_env _ sample_world 42);
    reflexivity.
Defined.

(** ** Opening a key that has no node *)

(** C5. When the node lookup answers [undefined], [openKey] returns the
    world it was given: no route message, no context message, the
    editing key and the rest of the session as they were. The function is
    total: it does not throw. *)
Theorem openKey_without_node_is_noop
    (e : Env) (keypath : string) (locale index : JSValue) (w : World) :
  getNodeByKey e keypath = VUndefined →
  openKey e keypath locale index w = w ∧
  posts (since w (openKey e keypath locale index w)) = [] ∧
  _editing_key (session (openKey e keypath locale index w)) =
  _editing_key (session w).
Proof.
  intros Hnode. assert (openKey e keypath locale index w = w) as ->.
  { unfold openKey. by rewrite Hnode. }
  split_and!; [done| |done]. unfold since. by rewrite drop_all.
Qed.

Lemma openKey_without_node_is_noop_witness :
  openKey sample_env "missing.key" (VStr "en") (VNum 0) sample_world =
  sample_world.
Proof.
  apply (openKey_without_node_is_noop sample_env "missing.key"). reflexivity.
Defined.

(** ** The extension hook *)

(** C9. When the hook answers [true] for a message, [handleMessages]
    returns with the world unchanged: the flag, the editing key, the
    queue, the trace of queued messages and of collaborator calls are
    all as before. *)
Theorem hook_intercepts_dispatch
    (e : Env) (message : Message) (w : World)
    (hook : Message → option bool) :
  extendHandler (session w) = Some hook →
  hook message = Some true →
  handleMessages e message w = Some w.
Proof.
  intros Hhook Hanswer. unfold handleMessages, handled.
  by rewrite Hhook, Hanswer.
Qed.

Lemma hook_intercepts_dispatch_witness :
  handleMessages sample_env set_record_message hooked_world =
  Some hooked_world.
Proof.
  apply (hook_intercepts_dispatch sample_env set_record_message hooked_world
           sample_hook); reflexivity.
Defined.

(** ** Index properties of a spread array *)

Lemma pretty_N_go_digit (x : N) (s : string) :
  (0 < x)%N → ∃ d t, pretty_N_go x s = String (pretty_N_char d) t.
Proof.
  revert s. induction (N.lt_wf_0 x) as [x _ IH]. intros s Hx.
  rewrite pretty_N_go_step by done.
  destruct (decide (x `div` 10 = 0)%N) as [->|Hdiv].
  - rewrite pretty_N_go_0. eauto.
  - apply IH; [by apply N.div_lt|by apply N.neq_0_lt_0].
Qed.

Lemma pretty_N_char_not_underscore (d : N) : pretty_N_char d ≠ "_"%char.
Proof. unfold pretty_N_char. by repeat case_match. Qed.

(** An index is never the property name [_id]. *)
Lemma pretty_not_id (i : nat) : pretty i ≠ "_id".
Proof.
  unfold pretty, pretty_nat, pretty, pretty_N. case_decide; [done|].
  destruct (pretty_N_go_digit (N.of_nat i) "") as (d & t & ->); [lia|].
  intros [= Hd _]. by apply (pretty_N_char_not_underscore d).
Qed.

Lemma pretty_N_char_not_t (d : N) : pretty_N_char d ≠ "t"%char.
Proof. unfold pretty_N_char. by repeat case_match. Qed.

(** An index is never the property name [type]. *)
Lemma pretty_not_type (i : nat) : pretty i ≠ "type".
Proof.
  unfold pretty, pretty_nat, pretty, pretty_N. case_decide; [done|].
  destruct (pretty_N_go_digit (N.of_nat i) "") as (d & t & ->); [lia|].
  intros [= Hd _]. by apply (pretty_N_char_not_t d).
Qed.

(** A spread array has no [type]. *)
Lemma index_props_no_type (k : nat) (l : list JSValue) :
  index_props k l !! "type" = None.
Proof.
  revert k. induction l as [|v l IH]; intros k; simpl; [done|].
  rewrite lookup_insert_ne by apply pretty_not_type. apply IH.
Qed.

Lemma index_props_lookup (k i : nat) (l : list JSValue) :
  index_props k l !! pretty i = if decide (k ≤ i) then l !! (i - k) else None.
Proof.
  revert k. induction l as [|v l IH]; intros k; simpl.
  { rewrite lookup_empty. by case_decide. }
  destruct (decide (k = i)) as [->|Hne].
  - rewrite lookup_insert_eq, decide_True, Nat.sub_diag by done. done.
  - rewrite lookup_insert_ne by (by intros ?%(inj pretty)).
    rewrite IH. repeat case_decide; try lia; [|done].
    by replace (i - k) with (S (i - S k)) by lia.
Qed.

Lemma spread_array_lookup (l : list JSValue) (i : nat) :
  own_props (VArr l) !! pretty i = l !! i.
Proof.
  simpl. rewrite index_props_lookup, decide_True, Nat.sub_0_r by lia. done.
Qed.

(** ** Reading many records *)

Lemma mapM_record_of (e : Env) (items : list Message) :
  mapM (record_of e) (VObj <$> items) =
  Some ((λ i, getRecordByKey e (get i "keypath") (get i "locale")) <$> items).
Proof.
  induction items as [|i items IH]; [done|].
  rewrite fmap_cons. cbn [mapM]. rewrite IH. done.
Qed.

(** C8. A ['get_records'] message whose [items] are the objects [items]
    is answered by [reply] with the list of the loader's records for the
    keypath and locale of each item: as long as [items], the [n]-th record
    belonging to the [n]-th item. The message queued for it holds the
    [n]-th record under the property name [n]. *)
Theorem get_records_preserves_order
    (e : Env) (message : Message) (w : World) (items : list Message) :
  get message "type" = VStr "get_records" →
  get message "items" = VArr (VObj <$> items) →
  handled (session w) message = false →
  ∃ data,
    handleMessages e message w = Some (reply message (VArr data) w) ∧
    length data = length items ∧
    (∀ n i, items !! n = Some i →
       data !! n =
       Some (getRecordByKey e (get i "keypath") (get i "locale"))) ∧
    posts (since w (reply message (VArr data) w)) =
      [reply_message message (VArr data)] ∧
    (∀ n, reply_message message (VArr data) !! pretty n = data !! n).
Proof.
  intros Hty Hitems Hh.
  exists ((λ i, getRecordByKey e (get i "keypath") (get i "locale")) <$> items).
  split_and!.
  - unfold handleMessages. rewrite Hh, dispatch_get_records by done.
    rewrite Hitems. simpl. by rewrite mapM_record_of.
  - apply length_fmap.
  - intros n i Hn. by rewrite list_lookup_fmap, Hn.
  - apply postMessage_since.
  - intros n. unfold reply_message.
    rewrite lookup_insert_ne by (apply not_eq_sym, pretty_not_id).
    apply spread_array_lookup.
Qed.

Lemma get_records_preserves_order_witness :
  ∃ data,
    handleMessages sample_env get_records_message sample_world =
    Some (reply get_records_message (VArr data) sample_world) ∧
    data = [sample_record; VUndefined].
Proof.
  destruct (get_records_preserves_order sample_env get_records_message
              sample_world sample_items)
    as (data & Hreply & Hlen & Hnth & _); [reflexivity..|].
  exists data. split; [exact Hreply|].
  destruct data as [|r0 [|r1 [|r2 data]]]; try discriminate Hlen.
  pose proof (Hnth 0 _ eq_refl) as H0. pose proof (Hnth 1 _ eq_refl) as H1.
  injection H0 as ->. injection H1 as ->. reflexivity.
Defined.

(** ** Writing records *)




(** C10. A ['set_record'] message has the effect of the ['set_records']
    message whose [items] hold the one item made of its keypath, locale
    and value, when the hook leaves both alone: handling either returns
    the same world, the given one after the same single [loader.write]
    call with the same enriched item. *)
Theorem set_record_is_single_set_records
    (e : Env) (message : Message) (w : World) :
  let item : Message :=
    {[ "keypath" := get message "keypath";
       "locale" := get message "locale";
       "value" := get message "value" ]} in
  let batch : Message :=
    {[ "type" := VStr "set_records"; "items" := VArr [VObj item] ]} in
  let record :=
    getRecordByKey e (get message "keypath") (get message "locale") in
  get message "type" = VStr "set_record" →
  handled (session w) message = false →
  handled (session w) batch = false →
  handleMessages e message w = handleMessages e batch w ∧
  handleMessages e message w =
  Some (emit [EvWrite [ {[ "keypath" := get message "keypath";
                           "locale" := get message "locale";
                           "value" := get message "value";
                           "filepath" := opt_member record "filepath";
                           "namespace" :=
                             opt_member (opt_member record "meta")
                                        "namespace" ]} ]] w).
Proof.
  intros item batch record Hty Hh Hh'.
  assert (handleMessages e batch w =
          Some (emit [EvWrite [ {[ "keypath" := get message "keypath";
                           "locale" := get message "locale";
                           "value" := get message "value";
                           "filepath" := opt_member record "filepath";
                           "namespace" :=
                             opt_member (opt_member record "meta")
                                        "namespace" ]} ]] w)) as Hbatch.
  { unfold handleMessages. rewrite Hh'. reflexivity. }
  rewrite Hbatch. split; unfold handleMessages, dispatch;
    rewrite Hh, Hty; reflexivity.
Qed.

Lemma set_record_is_single_set_records_witness :
  handleMessages sample_env set_record_message sample_world =
  handleMessages sample_env set_records_message sample_world.
Proof.
  apply (set_record_is_single_set_records sample_env set_record_message
           sample_world); reflexivity.
Defined.

(** ** Reporting the context of the current file *)

Lemma setContext_since (context : JSValue) (w : World) :
  posts (since w (setContext context w)) =
  [ {[ "type" := VStr "context";
       "data" := match context with
                 | VUndefined => VObj ∅
                 | _ => context
                 end ]} ].
Proof. apply postMessage_since. Qed.

Lemma since_refl (w : World) : since w w = [].
Proof. unfold since. apply drop_all. Qed.

Lemma since_trans (w1 w2 w3 : World) (evs2 evs3 : list Event) :
  trace w2 = trace w1 ++ evs2 → trace w3 = trace w2 ++ evs3 →
  since w1 w3 = since w1 w2 ++ since w2 w3.
Proof.
  intros H2 H3. rewrite (since_app _ _ _ H2), (since_app _ _ _ H3).
  apply since_app. by rewrite H3, H2, (assoc_L (++)).
Qed.

(** With a supported document active, the claim that a context is
    always sent and [true] returned fails: no key detected, no populated
    context, and the answer is [false]. *)
Lemma context_of_document_without_keys :
  ¬ (∀ e w doc,
       activeDocument e = Some doc →
       isLanguageIdSupported e (languageId doc) = true →
       (sendCurrentFileContext e w).1 = true ∧
       ∃ keys,
         last (posts (since w (sendCurrentFileContext e w).2)) =
         Some {[ "type" := VStr "context";
                 "data" := VObj {[ "filepath" := VStr (fsPath doc);
                                   "keys" := VArr keys ]} ]}).
Proof.
  intros H.
  destruct (H env_without_keys sample_world sample_document eq_refl eq_refl)
    as [Hret _].
  discriminate Hret.
Qed.

(** C6, amended. In standalone mode [sendCurrentFileContext] first posts
    a context message with empty data. Then: with no active document,
    with one of an unsupported language, or with one in which no key is
    detected, it returns [false] and posts nothing more; otherwise it
    posts one more context message, carrying the file path and the
    detected keys, each with its current value added, and returns
    [true]. *)
Theorem sendCurrentFileContext_behaviour (e : Env) (w : World) :
  let cleared : list Message :=
    if decide (_mode (session w) = standalone)
    then [ {[ "type" := VStr "context"; "data" := VObj ∅ ]} ] else [] in
  let w0 :=
    if decide (_mode (session w) = standalone)
    then setContext (VObj ∅) w else w in
  posts (since w w0) = cleared ∧
  match activeDocument e with
  | None => sendCurrentFileContext e w = (false, w0)
  | Some doc =>
      if isLanguageIdSupported e (languageId doc) then
        match default [] (getKeys e doc) with
        | [] => sendCurrentFileContext e w = (false, w0)
        | k :: keys =>
            let context : Message :=
              {[ "filepath" := VStr (fsPath doc);
                 "keys" :=
                   VArr (VObj <$>
                         ((λ k, <["value" := getValueByKey e (get k "key")]> k)
                          <$> k :: keys)) ]} in
            sendCurrentFileContext e w = (true, setContext (VObj context) w0) ∧
            posts (since w (setContext (VObj context) w0)) =
            cleared ++ [ {[ "type" := VStr "context";
                            "data" := VObj context ]} ]
        end
      else sendCurrentFileContext e w = (false, w0)
  end.
Proof.
  intros cleared w0.
  assert (posts (since w w0) = cleared ∧ ∃ evs, trace w0 = trace w ++ evs)
    as [Hcleared [evs0 Hevs0]].
  { subst w0 cleared. case_decide.
    - split; [apply setContext_since|].
      destruct (postMessage_trace
                  {[ "type" := VStr "context"; "data" := VObj ∅ ]} w)
        as (evs & Ht & _). eauto.
    - rewrite since_refl. split; [done|]. exists [].
      by rewrite (right_id_L [] (++)). }
  split; [done|].
  unfold sendCurrentFileContext. fold w0.
  destruct (activeDocument e) as [doc|]; [|done].
  destruct (isLanguageIdSupported e (languageId doc)); simpl; [|done].
  destruct (default [] (getKeys e doc)) as [|k keys]; simpl; [done|].
  split; [done|].
  match goal with
  | |- posts (since w (setContext ?c w0)) = _ =>
      destruct (postMessage_trace {[ "type" := VStr "context"; "data" := c ]} w0)
        as (evs1 & Ht1 & Hp1);
      rewrite (since_trans w w0 (setContext c w0) evs0 evs1 Hevs0 Ht1),
        posts_app, Hcleared, setContext_since
  end.
  done.
Qed.

(** ** What the session queues *)

Lemma step_posts (e : Env) (a : Action) (w : World) :
  ∃ evs,
    trace (step e a w) = trace w ++ evs ∧ Forall (queues e a) (posts evs).
Proof.
  destruct (action_cases a) as [[f ->]|Hne].
  { simpl. unfold settle. repeat case_match; simpl; eauto.
    exists []. by rewrite (right_id_L [] (++)). }
  destruct (steps_posts _ _ _ (step_steps e a w Hne)) as (evs & Ht & Hp).
  exists evs. split; [|done]. rewrite Ht. by destruct (sets_ready w a).
Qed.

Lemma typed_outbound_has_type (m : Message) : typed_outbound m → has_type m.
Proof.
  intros (ty & Hty & Hm). exists ty. split; [done|].
  intros ->. unfold outbound_types in Hty.
  repeat (apply elem_of_cons in Hty as [Hty|Hty]; [discriminate|]).
  by apply elem_of_nil in Hty.
Qed.

(** A reply to a request for a record the loader does not have is the
    object [{ _id: 42 }]: a message queued by the session itself that
    has no [type]. *)
Lemma reply_without_type :
  ¬ (∀ e a w m,
       (∀ m', a ≠ CallPostMessage m') →
       m ∈ posts (since w (step e a w)) →
       has_type m).
Proof.
  intros H.
  destruct (H sample_env (CallHandleMessages get_missing_record_message)
              sample_world {[ "_id" := VNum 42 ]}) as (ty & Hty & _).
  - done.
  - vm_compute. apply list_elem_of_here.
  - discriminate Hty.
Qed.

(** C7, amended. A message queued by any operation of the session, other
    than one handed in by a caller of [postMessage], is either one of
    the five typed kinds, with that non-empty [type], or a reply to the
    ['get_record'] or ['get_records'] message being handled. A reply is
    built from the data looked up for that message, the loader's record
    for its keypath and locale or the array of the records of its items:
    it has the [_id] of the message and, under every other name, what
    that data has as own property. So it has a [type] only when the
    looked-up data has one, and never under ['get_records']. *)
Theorem queued_messages_typed_or_replies
    (e : Env) (a : Action) (w : World) (m : Message) :
  (∀ m', a ≠ CallPostMessage m') →
  m ∈ posts (since w (step e a w)) →
  (typed_outbound m ∧ has_type m) ∨
  (∃ inbound data,
     a = CallHandleMessages inbound ∧
     (get inbound "type" = VStr "get_record" ∧
      data =
        getRecordByKey e (get inbound "keypath") (get inbound "locale") ∨
      get inbound "type" = VStr "get_records" ∧
      m !! "type" = None ∧
      ∃ items records,
        get inbound "items" = VArr items ∧
        mapM (record_of e) items = Some records ∧
        data = VArr records) ∧
     m = reply_message inbound data ∧
     m !! "_id" = Some (get inbound "_id") ∧
     (∀ k, k ≠ "_id" → m !! k = own_props data !! k) ∧
     m !! "type" = own_props data !! "type").
Proof.
  intros Hcaller Hm.
  destruct (step_posts e a w) as (evs & Ht & Hq).
  rewrite (since_app _ _ _ Ht) in Hm.
  rewrite Forall_forall in Hq. destruct (Hq m Hm) as [Hty|[Hre|Hpost]].
  - left. eauto using typed_outbound_has_type.
  - right. destruct Hre as (inbound & -> & data & Hdata & ->).
    assert (∀ k, k ≠ "_id" →
                 reply_message inbound data !! k = own_props data !! k)
      as Hother.
    { intros k Hk. unfold reply_message. by rewrite lookup_insert_ne. }
    exists inbound, data. split_and!; try done.
    + destruct Hdata as [[Hty ->]|(Hty & items & records & Hi & Hr & ->)].
      * by left.
      * right. split; [done|]. split; [|by exists items, records].
        rewrite Hother by done. apply index_props_no_type.
    + apply reply_message_id.
    + by apply Hother.
  - by destruct (Hcaller m).
Qed.

Lemma queued_messages_typed_or_replies_witness :
  ({[ "_id" := VNum 42 ]} : Message) =
  reply_message get_missing_record_message
    (getRecordByKey sample_env (VStr "missing.key") (VStr "en")).
Proof.
  destruct (queued_messages_typed_or_replies sample_env
              (CallHandleMessages get_missing_record_message) sample_world
              {[ "_id" := VNum 42 ]})
    as [[(ty & _ & Hty) _]|(inbound & data & Ha & Hdata & Hm & _)].
  - done.
  - vm_compute. apply list_elem_of_here.
  - discriminate Hty.
  - injection Ha as <-.
    destruct Hdata as [[_ ->]|(Hty & _)]; [exact Hm|discriminate Hty].
Defined.

(** * Further properties *)

(** ** The queue of a ready session *)

Lemma postMessage_idle (m : Message) (w : World) : idle (postMessage m w).
Proof.
  intros Hr. rewrite postMessage_ready in Hr.
  by destruct (postMessage_open m w Hr) as (b & rest & _ & ->).
Qed.

Lemma prim_idle (P : Message → Prop) (w w' : World) :
  prim P w w' → idle w → idle w'.
Proof.
  destruct 1 as [m w _|evs w _|f w Hf Hg]; intros Hi.
  - apply postMessage_idle.
  - done.
  - intros Hr. simpl in *. rewrite Hf in Hr. rewrite Hg. by apply Hi.
Qed.

Lemma steps_idle (P : Message → Prop) (w w' : World) :
  rtc (prim P) w w' → idle w → idle w'.
Proof. induction 1; eauto using prim_idle. Qed.

Lemma step_idle (e : Env) (a : Action) (w : World) : idle w → idle (step e a w).
Proof.
  intros Hi. destruct (action_cases a) as [[f ->]|Hne].
  { intros Hr. simpl in *. rewrite settle_session in *. by apply Hi. }
  destruct (sets_ready w a) eqn:Hs.
  - destruct a; try discriminate Hs. simpl in Hs.
    apply andb_prop in Hs as [Hh Hty]. apply negb_true_iff in Hh.
    apply of_type_true in Hty. simpl. unfold handleMessages.
    rewrite Hh, dispatch_ready by done. apply postMessage_idle.
  - pose proof (step_steps e a w Hne) as Hsteps. rewrite Hs in Hsteps.
    by eapply steps_idle.
Qed.

Lemma run_idle (sched : list (Env * Action)) (w : World) :
  idle w → idle (run sched w).
Proof.
  revert w. induction sched as [|[e a] sched IH]; intros w Hi; [done|].
  simpl. by apply IH, step_idle.
Qed.

Lemma new_Protocol_idle (hook : option (Message → option bool))
    (ext : JSValue) :
  idle (new_Protocol hook ext).
Proof. by intros Hr. Qed.

(** X1. Whatever was done with a session, once it is ready its queue is
    empty between operations: [postMessage] leaves nothing behind for a
    later call to pick up. *)
Theorem ready_session_queue_is_empty
    (hook : option (Message → option bool)) (ext : JSValue)
    (sched : list (Env * Action)) :
  let w := run sched (new_Protocol hook ext) in
  ready (session w) = true → pendingMessages (session w) = [].
Proof. intros w. apply run_idle, new_Protocol_idle. Qed.

Lemma ready_session_queue_is_empty_witness :
  pendingMessages
    (session (run [(sample_env, CallPostMessage sample_message);
                   (sample_env, CallHandleMessages ready_message);
                   (sample_env, CallUpdateConfig)] sample_world)) = [].
Proof.
  apply (ready_session_queue_is_empty None VUndefined
           [(sample_env, CallPostMessage sample_message);
            (sample_env, CallHandleMessages ready_message);
            (sample_env, CallUpdateConfig)]).
  reflexivity.
Defined.

(** X2. In a ready session [postMessage] hands its message to the
    transport before it returns, in a loop of its own that has nothing
    else to deliver; the queue stays empty. *)
Theorem ready_postMessage_delivers_at_once
    (hook : option (Message → option bool)) (ext : JSValue)
    (sched : list (Env * Action)) (m : Message) :
  let w := run sched (new_Protocol hook ext) in
  ready (session w) = true →
  transports (since w (postMessage m w)) = [m] ∧
  flushes (postMessage m w) = <[next_flush w := mkFlush m []]> (flushes w) ∧
  pendingMessages (session (postMessage m w)) = [].
Proof.
  intros w Hr.
  assert (pendingMessages (session w) = []) as Hq
    by (by apply run_idle; [apply new_Protocol_idle|]).
  destruct (postMessage_open m w Hr) as (b & rest & Hb & Hw).
  rewrite Hq in Hb. injection Hb as <- <-. rewrite Hw. simpl.
  split_and!; [|done|done].
  by rewrite (since_app w _ [EvPost m; EvTransport (next_flush w) m]).
Qed.

Lemma ready_postMessage_delivers_at_once_witness :
  transports
    (since (run [(sample_env, CallHandleMessages ready_message)] sample_world)
       (postMessage sample_message
          (run [(sample_env, CallHandleMessages ready_message)]
             sample_world))) = [sample_message].
Proof.
  apply (ready_postMessage_delivers_at_once None VUndefined
           [(sample_env, CallHandleMessages ready_message)] sample_message).
  reflexivity.
Defined.

(** ** Everything posted is delivered *)

(** X3. In a ready session with no delivery pending, the messages handed
    to the transport are the posted messages, each as often as it was
    posted: none was lost and none delivered twice. *)
Theorem quiescent_session_delivered_all
    (hook : option (Message → option bool)) (ext : JSValue)
    (sched : list (Env * Action)) :
  let w := run sched (new_Protocol hook ext) in
  ready (session w) = true →
  flushes w = ∅ →
  transports (trace w) ≡ₚ posts (trace w).
Proof.
  intros w Hr Hfl.
  assert (accounted w) as [_ Hacc]
    by apply run_accounted, new_Protocol_accounted.
  assert (pendingMessages (session w) = []) as Hq
    by (by apply run_idle; [apply new_Protocol_idle|]).
  rewrite Hacc, Hq, Hfl. unfold waiting. rewrite map_to_list_empty. simpl.
  by rewrite (right_id_L [] (++)).
Qed.

Lemma quiescent_session_delivered_all_witness :
  let w := run [(sample_env, CallPostMessage sample_message);
                (sample_env, CallHandleMessages ready_message);
                (sample_env, TransportFulfilled 0);
                (sample_env, TransportFulfilled 1);
                (sample_env, TransportFulfilled 2);
                (sample_env, TransportFulfilled 0)] sample_world in
  transports (trace w) ≡ₚ posts (trace w).
Proof.
  apply (quiescent_session_delivered_all None VUndefined
           [(sample_env, CallPostMessage sample_message);
            (sample_env, CallHandleMessages ready_message);
            (sample_env, TransportFulfilled 0);
            (sample_env, TransportFulfilled 1);
            (sample_env, TransportFulfilled 2);
            (sample_env, TransportFulfilled 0)]); reflexivity.
Defined.

Lemma run_app (s1 s2 : list (Env * Action)) (w : World) :
  run (s1 ++ s2) w = run s2 (run s1 w).
Proof.
  revert w. induction s1 as [|[e a] s1 IH]; intros w; [done|]. apply IH.
Qed.

Lemma settle_posts (f : nat) (w : World) :
  posts (trace (settle f w)) = posts (trace w).
Proof.
  unfold settle. repeat case_match; simpl; rewrite ?posts_app; simpl;
    by rewrite ?(right_id_L [] (++)).
Qed.

(** A loop with [r] messages behind the one in flight ends after [r + 1]
    fulfilments. *)
Lemma fulfil_loop (e : Env) (r : nat) (f : nat) (w : World) (fl : Flush) :
  flushes w !! f = Some fl →
  length (remaining fl) = r →
  let w' := run (replicate (S r) (e, TransportFulfilled f)) w in
  flushes w' = delete f (flushes w) ∧
  session w' = session w ∧
  posts (trace w') = posts (trace w).
Proof.
  revert w fl. induction r as [|r IH]; intros w fl Hfl Hlen.
  - destruct (remaining fl) as [|msg rest] eqn:Hrem; [|done].
    cbv zeta.
    change (run (replicate 1 (e, TransportFulfilled f)) w) with (settle f w).
    rewrite settle_session, settle_posts. split_and!; [|done|done].
    unfold settle. by rewrite Hfl, Hrem.
  - destruct (remaining fl) as [|msg rest] eqn:Hrem; [done|].
    injection Hlen as Hlen.
    change (run (replicate (S (S r)) (e, TransportFulfilled f)) w)
      with (run (replicate (S r) (e, TransportFulfilled f)) (settle f w)).
    destruct (IH (settle f w) (mkFlush msg rest)) as (E1 & E2 & E3).
    { unfold settle. rewrite Hfl, Hrem. simpl. apply lookup_insert_eq. }
    { done. }
    cbv zeta. rewrite E1, E2, E3, settle_session, settle_posts.
    split_and!; [|done|done].
    unfold settle. rewrite Hfl, Hrem. simpl. apply delete_insert_eq.
Qed.

Lemma only_fulfilments_replicate (e : Env) (f n : nat) :
  only_fulfilments (replicate n (e, TransportFulfilled f)).
Proof. apply Forall_replicate. by exists f. Qed.

Lemma drain (e : Env) (n : nat) (w : World) :
  size (flushes w) = n →
  ∃ sched,
    only_fulfilments sched ∧
    flushes (run sched w) = ∅ ∧
    session (run sched w) = session w ∧
    posts (trace (run sched w)) = posts (trace w).
Proof.
  revert w. induction n as [|n IH]; intros w Hsize.
  { exists []. split_and!; try done; [constructor|].
    by apply map_size_empty_iff. }
  destruct (map_choose (flushes w)) as (f & fl & Hfl).
  { apply map_size_non_empty_iff. lia. }
  destruct (fulfil_loop e (length (remaining fl)) f w fl Hfl eq_refl)
    as (E1 & E2 & E3).
  destruct (IH (run (replicate (S (length (remaining fl)))
                       (e, TransportFulfilled f)) w))
    as (sched & Hs & F1 & F2 & F3).
  { rewrite E1, map_size_delete, Hfl. lia. }
  exists (replicate (S (length (remaining fl))) (e, TransportFulfilled f)
          ++ sched).
  rewrite run_app, F1, F2, F3, E2, E3. split_and!; try done.
  apply Forall_app. split; [apply only_fulfilments_replicate|done].
Qed.

(** X4. From any state of a ready session, fulfilling the pending
    deliveries and nothing else leads to a state with no delivery
    pending in which every message posted so far has been handed to the
    transport exactly as often as it was posted. *)
Theorem fulfilments_deliver_all
    (hook : option (Message → option bool)) (ext : JSValue)
    (before : list (Env * Action)) (e : Env) :
  let w := run before (new_Protocol hook ext) in
  ready (session w) = true →
  ∃ sched,
    only_fulfilments sched ∧
    flushes (run sched w) = ∅ ∧
    transports (trace (run sched w)) ≡ₚ posts (trace w).
Proof.
  intros w Hr.
  destruct (drain e (size (flushes w)) w eq_refl) as (sched & Hs & F1 & F2 & F3).
  exists sched. split_and!; [done|done|].
  assert (accounted (run sched w)) as [_ Hacc]
    by apply run_accounted, run_accounted, new_Protocol_accounted.
  assert (pendingMessages (session w) = []) as Hq
    by (by apply run_idle; [apply new_Protocol_idle|]).
  rewrite <-F3, Hacc, F1, F2, Hq. unfold waiting.
  rewrite map_to_list_empty. simpl. by rewrite (right_id_L [] (++)).
Qed.

Lemma fulfilments_deliver_all_witness :
  let w := run [(sample_env, CallPostMessage sample_message);
                (sample_env, CallHandleMessages ready_message)]
             sample_world in
  ∃ sched,
    only_fulfilments sched ∧
    flushes (run sched w) = ∅ ∧
    transports (trace (run sched w)) ≡ₚ posts (trace w).
Proof.
  apply (fulfilments_deliver_all None VUndefined
           [(sample_env, CallPostMessage sample_message);
            (sample_env, CallHandleMessages ready_message)] sample_env).
  reflexivity.
Defined.

(** ** What reaches the transport when the gate opens *)

(** X5. Handling ['ready'] on a session that was not ready hands three
    messages to the transport before it returns: the oldest buffered
    message (the acknowledgement when nothing was buffered), then the
    config snapshot, then the i18n messages. The rest of the buffer and
    the acknowledgement stay behind in the first loop: the config and
    i18n messages overtake them. *)
Theorem ready_hands_over_three_messages
    (hook : option (Message → option bool)) (ext : JSValue)
    (before : list (Env * Action)) (e : Env) (message : Message) :
  let w := run before (new_Protocol hook ext) in
  let w' := step e (CallHandleMessages message) w in
  ready (session w) = false →
  get message "type" = VStr "ready" →
  handled (session w) message = false →
  ∃ b rest,
    posts (trace w) ++ [ready_message] = b :: rest ∧
    transports (since w w') =
      [ b;
        {[ "type" := VStr "config"; "data" := config e (session w) ]};
        {[ "type" := VStr "i18n"; "data" := i18n_messages e ]} ] ∧
    flushes w' !! next_flush w = Some (mkFlush b rest) ∧
    waiting (flushes w') ≡ₚ rest.
Proof.
  intros w w' Hr Hty Hh.
  assert (gate_closed w) as G by apply run_gate, new_Protocol_gate.
  destruct (G Hr) as (Hfl & _ & Hpm).
  subst w'. simpl. unfold handleMessages. rewrite Hh, dispatch_ready by done.
  simpl. rewrite <-Hpm. clearbody w.
  destruct w as [[r q k md h x] fls n tr]. simpl in *. subst r fls.
  unfold updateI18nMessages, updateConfig, postMessage. simpl.
  destruct (q ++ [ready_message]) as [|b rest] eqn:Hq.
  { by destruct q. }
  exists b, rest. simpl. split; [done|]. split_and!.
  - unfold since. simpl. rewrite <-!(assoc_L (++)), drop_app_length. done.
  - rewrite lookup_insert_ne by lia. rewrite lookup_insert_ne by lia.
    apply lookup_insert_eq.
  - unfold waiting.
    rewrite !map_to_list_insert, map_to_list_empty; simpl.
    + by rewrite (right_id_L [] (++)).
    + done.
    + rewrite lookup_insert_ne by lia. done.
    + rewrite lookup_insert_ne by lia. rewrite lookup_insert_ne by lia. done.
Qed.

Lemma ready_hands_over_three_messages_witness :
  let before := [(sample_env, CallPostMessage sample_message);
                 (sample_env, CallPostMessage set_record_message)] in
  let w := run before sample_world in
  ∃ b rest,
    posts (trace w) ++ [ready_message] = b :: rest ∧
    transports
      (since w (step sample_env (CallHandleMessages ready_message) w)) =
      [ b;
        {[ "type" := VStr "config"; "data" := config sample_env (session w) ]};
        {[ "type" := VStr "i18n"; "data" := i18n_messages sample_env ]} ] ∧
    flushes (step sample_env (CallHandleMessages ready_message) w)
      !! next_flush w = Some (mkFlush b rest) ∧
    waiting (flushes (step sample_env (CallHandleMessages ready_message) w))
      ≡ₚ rest.
Proof.
  apply (ready_hands_over_three_messages None VUndefined
           [(sample_env, CallPostMessage sample_message);
            (sample_env, CallPostMessage set_record_message)]
           sample_env ready_message); reflexivity.
Defined.

(** ** Messages that throw, and messages that do nothing *)

Lemma member_None (v : JSValue) (k : string) :
  member v k = None ↔ is_nullish v = true.
Proof. by destruct v. Qed.






Lemma of_type_false (ty ty' : string) (m : Message) :
  get m "type" = VStr ty' → ty' ≠ ty → of_type ty m = false.
Proof.
  intros Hm Hne. unfold of_type. rewrite Hm. by apply bool_decide_eq_false.
Qed.

Lemma dispatch_set_record (e : Env) (message : Message) (w : World) :
  get message "type" = VStr "set_record" →
  dispatch e message w = setRecords e (VArr [VObj message]) w.
Proof. intros Hty. unfold dispatch. by rewrite Hty. Qed.

Lemma dispatch_set_records (e : Env) (message : Message) (w : World) :
  get message "type" = VStr "set_records" →
  dispatch e message w = setRecords e (get message "items") w.
Proof. intros Hty. unfold dispatch. by rewrite Hty. Qed.

(** The cases of the [switch] that neither read [items] nor post: the
    review, translation and command messages, and every message the
    [switch] has no label for. *)
Lemma dispatch_quiet (e : Env) (message : Message) (w : World) :
  of_type "ready" message = false →
  of_type "init" message = false →
  of_type "get_record" message = false →
  of_type "set_record" message = false →
  of_type "get_records" message = false →
  of_type "set_records" message = false →
  ∃ evs,
    dispatch e message w = Some (emit evs w) ∧
    Forall quiet evs ∧ length evs ≤ 1 ∧
    (match get message "type" with
     | VStr ty => ty ∉ recognized_types
     | _ => True
     end → evs = []).
Proof.
  unfold of_type, dispatch, reviews.
  destruct (get message "type") as [| | | |ty| |];
    try (intros _ _ _ _ _ _; exists []; destruct w; split_and!;
         [by unfold emit; simpl; rewrite (right_id_L [] (++))
         |done|simpl; lia|done]).
  intros H1%bool_decide_eq_false H2%bool_decide_eq_false
         H3%bool_decide_eq_false H4%bool_decide_eq_false
         H5%bool_decide_eq_false H6%bool_decide_eq_false.
  rewrite !decide_False by done.
  repeat case_decide; subst.
  all: try (eexists [_]; split_and!;
            [done|by repeat constructor|done|
             intros Hn; exfalso; apply Hn;
             by apply (bool_decide_unpack _)]).
  exists []. destruct w. split_and!; [|done|simpl; lia|done].
  unfold emit. simpl. by rewrite (right_id_L [] (++)).
Qed.

Lemma dispatch_init (e : Env) (message : Message) (w : World) :
  get message "type" = VStr "init" →
  dispatch e message w = Some (updateI18nMessages e w).
Proof. intros Hty. unfold dispatch. by rewrite Hty. Qed.

Lemma emit_nil (w : World) : emit [] w = w.
Proof. destruct w. unfold emit. simpl. by rewrite (right_id_L [] (++)). Qed.

Lemma setRecords_Some (e : Env) (items : JSValue) (w w' : World) :
  setRecords e items w = Some w' →
  ∃ l pendings,
    items = VArr l ∧ w' = emit [EvWrite pendings] w ∧
    length pendings = length l.
Proof.
  unfold setRecords. destruct items as [| | | | |l|]; try done. simpl.
  destruct (mapM (pending_of e) l) as [pendings|] eqn:Hm; [|done].
  intros [= <-]. exists l, pendings. split_and!; [done|done|].
  apply mapM_Some_1 in Hm. symmetry. by eapply Forall2_length.
Qed.




(** X8. A message whose [type] is none of the labels of the [switch],
    or is not a string, is ignored: [handleMessages] returns with the
    world unchanged, whatever the hook answers. *)
Theorem unrecognized_message_is_ignored
    (e : Env) (message : Message) (w : World) :
  match get message "type" with
  | VStr ty => ty ∉ recognized_types
  | _ => True
  end →
  handleMessages e message w = Some w.
Proof.
  intros Hun. unfold handleMessages.
  destruct (handled (session w) message); [done|].
  assert (∀ ty, ty ∈ recognized_types → of_type ty message = false) as Hno.
  { intros ty Hty. destruct (of_type ty message) eqn:Ho; [|done].
    apply of_type_true in Ho. by rewrite Ho in Hun. }
  destruct (dispatch_quiet e message w) as (evs & Hq & _ & _ & Hnil);
    try (apply Hno; by apply (bool_decide_unpack _)).
  by rewrite Hq, (Hnil Hun), emit_nil.
Qed.

Lemma unrecognized_message_is_ignored_witness :
  handleMessages sample_env {[ "type" := VStr "Ready" ]} sample_world =
  Some sample_world.
Proof.
  apply (unrecognized_message_is_ignored sample_env _ sample_world).
  by apply (bool_decide_unpack _).
Defined.

(** X9. A message handled by anything but the ['ready'], ['init'],
    ['get_record'] and ['get_records'] cases sends nothing to the UI:
    when its handling returns, the session and the pending deliveries
    are as before and the trace has at most one more event, a call of a
    collaborator. *)
Theorem side_effect_messages_post_nothing
    (e : Env) (message : Message) (w w' : World) :
  of_type "ready" message = false →
  of_type "init" message = false →
  of_type "get_record" message = false →
  of_type "get_records" message = false →
  handleMessages e message w = Some w' →
  ∃ evs,
    w' = emit evs w ∧ length evs ≤ 1 ∧
    posts evs = [] ∧ transports evs = [].
Proof.
  intros H1 H2 H3 H5. unfold handleMessages.
  assert (∀ evs, Forall quiet evs → posts evs = [] ∧ transports evs = [])
    as Hquiet.
  { intros evs Hq. split; [by apply quiet_posts|].
    by apply transports_none, quiet_flush_of. }
  destruct (handled (session w) message).
  { intros [= <-]. exists []. rewrite emit_nil.
    split_and!; [done|simpl; lia|done|done]. }
  destruct (of_type "set_record" message) eqn:H4.
  { apply of_type_true in H4. rewrite dispatch_set_record by done.
    intros (l & pendings & _ & -> & _)%setRecords_Some.
    exists [EvWrite pendings]. split_and!; [done|simpl; lia|done|done]. }
  destruct (of_type "set_records" message) eqn:H6.
  { apply of_type_true in H6. rewrite dispatch_set_records by done.
    intros (l & pendings & _ & -> & _)%setRecords_Some.
    exists [EvWrite pendings]. split_and!; [done|simpl; lia|done|done]. }
  destruct (dispatch_quiet e message w H1 H2 H3 H4 H5 H6)
    as (evs & -> & Hq & Hlen & _).
  intros [= <-]. exists evs. destruct (Hquiet evs Hq). by split_and!.
Qed.

Lemma side_effect_messages_post_nothing_witness :
  ∃ evs,
    emit [EvReviews resolveComment [VStr "a.b"; VStr "en"; VStr "c1"]]
         sample_world = emit evs sample_world ∧
    length evs ≤ 1 ∧ posts evs = [] ∧ transports evs = [].
Proof.
  apply (side_effect_messages_post_nothing sample_env
           {[ "type" := VStr "review.resolve"; "keypath" := VStr "a.b";
              "locale" := VStr "en"; "commentId" := VStr "c1" ]}
           sample_world); reflexivity.
Defined.

(** ** The config snapshot *)



(** ** Opening a key and keeping it up to date *)

Lemma postMessage_settings (m : Message) (w : World) :
  settings (session (postMessage m w)) = settings (session w).
Proof.
  destruct (ready (session w)) eqn:Hr.
  - by destruct (postMessage_open m w Hr) as (b & rest & _ & ->).
  - by rewrite postMessage_closed.
Qed.

(** What [sendCurrentFileContext] posts: context messages, two at most,
    the first with empty data in standalone mode. *)
Lemma sendCurrentFileContext_posts (e : Env) (w : World) :
  ∃ evs,
    trace (sendCurrentFileContext e w).2 = trace w ++ evs ∧
    settings (session (sendCurrentFileContext e w).2) = settings (session w) ∧
    length (posts evs) ≤ 2 ∧
    Forall (λ m, m !! "type" = Some (VStr "context")) (posts evs) ∧
    (_mode (session w) = standalone →
     head (posts evs) =
     Some {[ "type" := VStr "context"; "data" := VObj ∅ ]}).
Proof.
  assert (∀ c w0, ∃ evs,
            trace (setContext c w0) = trace w0 ++ evs ∧
            settings (session (setContext c w0)) = settings (session w0) ∧
            ∃ m, posts evs = [m] ∧ m !! "type" = Some (VStr "context") ∧
                 (c = VObj ∅ →
                  m = {[ "type" := VStr "context"; "data" := VObj ∅ ]}))
    as Hctx.
  { intros c w0. unfold setContext.
    destruct (postMessage_trace
                {[ "type" := VStr "context";
                   "data" := match c with VUndefined => VObj ∅ | _ => c end ]}
                w0) as (evs & Ht & Hp).
    exists evs. split; [done|]. split; [apply postMessage_settings|].
    eexists. split; [done|]. split; [done|]. by intros ->. }
  unfold sendCurrentFileContext.
  set (w0 := if decide (_mode (session w) = standalone)
             then setContext (VObj ∅) w else w).
  assert (∃ evs0,
            trace w0 = trace w ++ evs0 ∧
            settings (session w0) = settings (session w) ∧
            length (posts evs0) ≤ 1 ∧
            Forall (λ m, m !! "type" = Some (VStr "context")) (posts evs0) ∧
            (_mode (session w) = standalone →
             posts evs0 =
             [ {[ "type" := VStr "context"; "data" := VObj ∅ ]} ]))
    as (evs0 & Ht0 & Hs0 & Hl0 & Hf0 & Hh0).
  { subst w0. case_decide as Hmode.
    - destruct (Hctx (VObj ∅) w) as (evs & Ht & Hs & m & Hp & Hm & Hempty).
      exists evs. rewrite Hp, (Hempty eq_refl) in *.
      split_and!; [done|done|simpl; lia|by repeat constructor|done].
    - exists []. rewrite (right_id_L [] (++)).
      split_and!; [done|done|simpl; lia|constructor|done]. }
  assert (∃ evs, trace w0 = trace w ++ evs ∧
            settings (session w0) = settings (session w) ∧
            length (posts evs) ≤ 2 ∧
            Forall (λ m, m !! "type" = Some (VStr "context")) (posts evs) ∧
            (_mode (session w) = standalone →
             head (posts evs) =
             Some {[ "type" := VStr "context"; "data" := VObj ∅ ]})) as Hstop.
  { exists evs0. split_and!; [done|done|lia|done|].
    intros Hm. by rewrite (Hh0 Hm). }
  destruct (activeDocument e) as [doc|]; [|done].
  destruct (isLanguageIdSupported e (languageId doc)); simpl; [|done].
  case_decide; [done|].
  match goal with
  | |- context [setContext ?c w0] =>
      destruct (Hctx c w0) as (evs1 & Ht1 & Hs1 & m & Hp1 & Hm1 & _)
  end.
  exists (evs0 ++ evs1). cbn [snd].
  rewrite Ht1, Ht0, Hs1, Hs0, posts_app, Hp1.
  split_and!.
  - by rewrite (assoc_L (++)).
  - done.
  - rewrite length_app. simpl. lia.
  - apply Forall_app. split; [done|by repeat constructor].
  - intros Hmode. by rewrite (Hh0 Hmode).
Qed.

(** X11. When the loader has a node for the key, [openKey] records the
    key as the one being edited and posts the route message, built from
    the key, the locale and the index given and from the loader's shadow
    records and the reviews of the key. After it come the context
    messages of [sendCurrentFileContext] and nothing else: at most two,
    at least one in standalone mode. Mode, hook and config extension are
    untouched. *)
Theorem openKey_posts_route_then_context
    (e : Env) (keypath : string) (locale index : JSValue) (w : World) :
  truthy (getNodeByKey e keypath) = true →
  let w' := openKey e keypath locale index w in
  settings (session w') =
    (Some keypath, _mode (session w), extendHandler (session w),
     extendConfig (session w)) ∧
  ∃ contexts,
    posts (since w w') = route_message e keypath locale index :: contexts ∧
    length contexts ≤ 2 ∧
    Forall (λ m, m !! "type" = Some (VStr "context")) contexts ∧
    (_mode (session w) = standalone →
     head contexts = Some {[ "type" := VStr "context"; "data" := VObj ∅ ]}).
Proof.
  intros Hnode w'. subst w'. unfold openKey. rewrite Hnode.
  set (w1 := with_session (set_editing_key (Some keypath)) w).
  fold (route_message e keypath locale index).
  set (w2 := postMessage (route_message e keypath locale index) w1).
  destruct (postMessage_trace (route_message e keypath locale index) w1)
    as (evs1 & Ht1 & Hp1).
  destruct (sendCurrentFileContext_posts e w2)
    as (evs2 & Ht2 & Hs2 & Hlen & Hall & Hhead).
  assert (settings (session w2) =
          (Some keypath, _mode (session w), extendHandler (session w),
           extendConfig (session w))) as Hs.
  { unfold w2. by rewrite postMessage_settings. }
  split; [by rewrite Hs2|].
  exists (posts evs2). split_and!; [|done|done|].
  - rewrite (since_app w _ (evs1 ++ evs2)).
    + by rewrite posts_app, Hp1.
    + rewrite Ht2. unfold w2. rewrite Ht1. simpl. by rewrite (assoc_L (++)).
  - intros Hmode. apply Hhead. by injection Hs as _ -> _ _.
Qed.

Lemma openKey_posts_route_then_context_witness :
  ∃ contexts,
    posts (since sample_world
             (openKey sample_env "a.b" (VStr "en") (VNum 0) sample_world)) =
    route_message sample_env "a.b" (VStr "en") (VNum 0) :: contexts ∧
    length contexts ≤ 2.
Proof.
  destruct (openKey_posts_route_then_context sample_env "a.b" (VStr "en")
              (VNum 0) sample_world eq_refl)
    as (_ & contexts & Hposts & Hlen & _).
  by exists contexts.
Defined.

Lemma openKey_editing (e : Env) (keypath : string) (locale index : JSValue)
    (w : World) :
  truthy (getNodeByKey e keypath) = true →
  _editing_key (session (openKey e keypath locale index w)) = Some keypath.
Proof.
  intros Hnode. unfold openKey. rewrite Hnode.
  destruct (sendCurrentFileContext_posts e
              (postMessage (route_message e keypath locale index)
                 (with_session (set_editing_key (Some keypath)) w)))
    as (evs & _ & Hs & _).
  rewrite postMessage_settings in Hs. by injection Hs.
Qed.

(** X12. After a key was opened, a change of the loader opens it again
    with the answers the collaborators give then, without the locale and
    the index of the first call; this posts nothing when the loader has
    lost the node. A key that is the empty string is not opened again,
    and in a session where no key was opened a change of the loader does
    nothing. *)
Theorem loader_change_reopens_editing_key
    (e e' : Env) (keypath : string) (locale index : JSValue) (w : World) :
  truthy (getNodeByKey e keypath) = true →
  let w1 := openKey e keypath locale index w in
  step e' LoaderDidChange w1 =
    (if decide (keypath = "") then w1
     else openKey e' keypath VUndefined VUndefined w1) ∧
  (truthy (getNodeByKey e' keypath) = false →
   step e' LoaderDidChange w1 = w1) ∧
  (_editing_key (session w) = None → step e' LoaderDidChange w = w).
Proof.
  intros Hnode w1.
  assert (step e' LoaderDidChange w1 =
          if decide (keypath = "") then w1
          else openKey e' keypath VUndefined VUndefined w1) as Hstep.
  { simpl. unfold onLoaderDidChange, editing. subst w1.
    rewrite openKey_editing by done.
    case_decide as Hk.
    - subst keypath. done.
    - by rewrite (proj2 (String.eqb_neq keypath "") Hk). }
  split_and!; [done| |].
  - intros Hgone. rewrite Hstep. case_decide; [done|].
    unfold openKey. by rewrite Hgone.
  - intros Hnone. simpl. unfold onLoaderDidChange, editing. by rewrite Hnone.
Qed.

Lemma loader_change_reopens_editing_key_witness :
  step sample_env LoaderDidChange
    (openKey sample_env "a.b" (VStr "en") (VNum 0) sample_world) =
  openKey sample_env "a.b" VUndefined VUndefined
    (openKey sample_env "a.b" (VStr "en") (VNum 0) sample_world).
Proof.
  destruct (loader_change_reopens_editing_key sample_env sample_env "a.b"
              (VStr "en") (VNum 0) sample_world) as (H & _); [reflexivity|].
  cbv zeta in H. rewrite decide_False in H by done. exact H.
Defined.

(** X13. A change of the reviews acts like a change of the loader when
    it names no key, the empty key, or the key being edited; when it
    names another key it does nothing. *)
Theorem reviews_change_filters_by_key
    (e : Env) (keypath : option string) (w : World) :
  step e (ReviewsDidChange keypath) w =
  match keypath with
  | None => step e LoaderDidChange w
  | Some kp =>
      if decide (kp = "") then step e LoaderDidChange w
      else if decide (_editing_key (session w) = Some kp)
           then step e LoaderDidChange w
           else w
  end.
Proof.
  simpl. unfold onReviewsDidChange, onLoaderDidChange, editing.
  destruct keypath as [kp|].
  - destruct (_editing_key (session w)) as [k|].
    + destruct (String.eqb k "") eqn:Hk.
      { by repeat case_decide. }
      destruct (String.eqb_spec kp "") as [->|Hkp].
      { by rewrite (decide_True (P := "" = "")). }
      rewrite (decide_False (P := kp = "")) by done.
      destruct (decide (k = kp)) as [->|Hne].
      * by rewrite (decide_True (P := Some kp = Some kp)).
      * by rewrite (decide_False (P := Some k = Some kp)) by congruence.
    + by repeat case_decide.
  - by destruct (_editing_key (session w)) as [k|]; repeat case_match.
Qed.

(** ** What leaves the settings of the session alone *)

Lemma openKey_settings (e : Env) (keypath : string) (locale index : JSValue)
    (w : World) :
  settings (session (openKey e keypath locale index w)) =
  if truthy (getNodeByKey e keypath)
  then (Some keypath, _mode (session w), extendHandler (session w),
        extendConfig (session w))
  else settings (session w).
Proof.
  unfold openKey. destruct (truthy (getNodeByKey e keypath)); [|done].
  destruct (sendCurrentFileContext_posts e
              (postMessage (route_message e keypath locale index)
                 (with_session (set_editing_key (Some keypath)) w)))
    as (evs & _ & Hs & _).
  fold (route_message e keypath locale index).
  by rewrite Hs, postMessage_settings.
Qed.

Lemma handleMessages_settings (e : Env) (message : Message) (w w' : World) :
  handleMessages e message w = Some w' →
  settings (session w') = settings (session w).
Proof.
  unfold handleMessages. destruct (handled (session w) message).
  { by intros [= <-]. }
  destruct (of_type "ready" message) eqn:H1.
  { apply of_type_true in H1. rewrite dispatch_ready by done. intros [= <-].
    unfold updateI18nMessages, updateConfig.
    by rewrite !postMessage_settings. }
  destruct (of_type "init" message) eqn:H2.
  { apply of_type_true in H2. rewrite dispatch_init by done. intros [= <-].
    apply postMessage_settings. }
  destruct (of_type "get_record" message) eqn:H3.
  { apply of_type_true in H3. rewrite dispatch_get_record by done.
    intros [= <-]. apply postMessage_settings. }
  destruct (of_type "set_record" message) eqn:H4.
  { apply of_type_true in H4. rewrite dispatch_set_record by done.
    by intros (l & pendings & _ & -> & _)%setRecords_Some. }
  destruct (of_type "get_records" message) eqn:H5.
  { apply of_type_true in H5. rewrite dispatch_get_records by done.
    intros Hd. simplify_option_eq. apply postMessage_settings. }
  destruct (of_type "set_records" message) eqn:H6.
  { apply of_type_true in H6. rewrite dispatch_set_records by done.
    by intros (l & pendings & _ & -> & _)%setRecords_Some. }
  destruct (dispatch_quiet e message w H1 H2 H3 H4 H5 H6) as (evs & -> & _).
  by intros [= <-].
Qed.

(** X14. No operation changes the hook or the config extension of a
    session. The mode changes only through its setter. The key being
    edited changes only by [openKey], called directly or by a loader or
    reviews notification, and then to a key the loader has a node for:
    it is never cleared, and no message from the UI changes it. *)
Theorem settings_change_only_by_their_setters
    (e : Env) (a : Action) (w : World) :
  let p := session w in
  let p' := session (step e a w) in
  extendHandler p' = extendHandler p ∧
  extendConfig p' = extendConfig p ∧
  (_mode p' ≠ _mode p → a = SetMode (_mode p')) ∧
  (_editing_key p' ≠ _editing_key p →
   ∃ k,
     _editing_key p' = Some k ∧
     truthy (getNodeByKey e k) = true ∧
     ((∃ locale index, a = CallOpenKey k locale index) ∨
      a = LoaderDidChange ∨ ∃ keypath, a = ReviewsDidChange keypath)).
Proof.
  intros p p'. subst p p'.
  assert (∀ w', settings (session w') = settings (session w) →
            extendHandler (session w') = extendHandler (session w) ∧
            extendConfig (session w') = extendConfig (session w) ∧
            (_mode (session w') ≠ _mode (session w) →
             a = SetMode (_mode (session w'))) ∧
            (_editing_key (session w') ≠ _editing_key (session w) →
             ∃ k,
               _editing_key (session w') = Some k ∧
               truthy (getNodeByKey e k) = true ∧
               ((∃ locale index, a = CallOpenKey k locale index) ∨
                a = LoaderDidChange ∨
                ∃ keypath, a = ReviewsDidChange keypath))) as Hsame.
  { intros w' [= Hk Hm Hh Hx]. by rewrite Hk, Hm, Hh, Hx. }
  assert (∀ k l i,
            (a = CallOpenKey k l i ∨ a = LoaderDidChange ∨
             ∃ keypath, a = ReviewsDidChange keypath) →
            extendHandler (session (openKey e k l i w)) =
              extendHandler (session w) ∧
            extendConfig (session (openKey e k l i w)) =
              extendConfig (session w) ∧
            (_mode (session (openKey e k l i w)) ≠ _mode (session w) →
             a = SetMode (_mode (session (openKey e k l i w)))) ∧
            (_editing_key (session (openKey e k l i w)) ≠
               _editing_key (session w) →
             ∃ k',
               _editing_key (session (openKey e k l i w)) = Some k' ∧
               truthy (getNodeByKey e k') = true ∧
               ((∃ locale index, a = CallOpenKey k' locale index) ∨
                a = LoaderDidChange ∨
                ∃ keypath, a = ReviewsDidChange keypath))) as Hopen.
  { intros k l i Ha. pose proof (openKey_settings e k l i w) as Hs.
    destruct (truthy (getNodeByKey e k)) eqn:Hnode; [|by apply Hsame].
    injection Hs as Hk Hm Hh Hx. rewrite Hk, Hm, Hh, Hx.
    split_and!; [done|done|done|]. intros _. exists k.
    split_and!; [done|done|].
    destruct Ha as [->|[->|[kp ->]]]; eauto. }
  destruct a; simpl.
  - apply Hsame, postMessage_settings.
  - apply Hsame, postMessage_settings.
  - apply Hsame, postMessage_settings.
  - apply Hsame. destruct (setRecords e items w) as [w'|] eqn:Hs; [|done].
    by apply setRecords_Some in Hs as (l & pendings & _ & -> & _).
  - apply Hopen. by left.
  - apply Hsame, postMessage_settings.
  - apply Hsame.
    by destruct (sendCurrentFileContext_posts e w) as (evs & _ & Hs & _).
  - apply Hsame. destruct (handleMessages e message w) as [w'|] eqn:Hs; [|done].
    by eapply handleMessages_settings.
  - unfold set_mode. split_and!; [done|done| |done].
    case_decide; [done|]. done.
  - unfold onLoaderDidChange. case_match; [|by apply Hsame].
    apply Hopen. by right; left.
  - apply Hsame, postMessage_settings.
  - unfold onReviewsDidChange. repeat case_match; try (by apply Hsame);
      apply Hopen; right; right; eauto.
  - apply Hsame. by rewrite settle_session.
Qed.

Lemma settings_change_only_by_their_setters_witness :
  ∃ k,
    _editing_key
      (session (step sample_env (CallOpenKey "a.b" VUndefined VUndefined)
                  sample_world)) = Some k ∧
    truthy (getNodeByKey sample_env k) = true.
Proof.
  destruct (settings_change_only_by_their_setters sample_env
              (CallOpenKey "a.b" VUndefined VUndefined) sample_world)
    as (_ & _ & _ & Hkey).
  destruct Hkey as (k & Hk & Hnode & _); [by vm_compute|].
  by exists k.
Defined.
